(** * AMICO acquisition schemes ([amico/scheme.py]): a shallow embedding

    The class [Scheme] of [src/amico/scheme.py] holds a diffusion-MRI
    acquisition table: per volume a gradient direction and a b-value, or
    the gradient strength and timings, or a sampled gradient waveform.

    Its numbers are numpy [float64] values.  They are Rocq's primitive
    binary64 floats here, whose operations are the IEEE-754 ones numpy
    uses (one NaN, signed zeros and infinities included).  A 1-D array is a
    list, a 2-D array is the list of its rows together with its column
    count.  Methods read the attributes of [self] from a record and return
    what they return in Python; [to_version_1] also returns [self] as the
    call leaves it. *)

From Stdlib Require Import ZArith QArith Qabs Floats Uint63 Lia.
From stdpp Require Import base list sorting strings pretty.

Set Warnings "-inexact-float".

(** * The program *)

(** ** Python and numpy values *)

#[global] Instance float_inhabited : Inhabited float := populate 0%float.

(** [float(n)] for a non-negative Python [int]. *)
Definition float_of_nat (n : nat) : float :=
  PrimFloat.of_uint63 (Uint63.of_Z (Z.of_nat n)).

(** A 2-D [numpy.ndarray] of [float64]: [shape = (length rows, shape1)]. *)
Record matrix : Type := Matrix { shape1 : nat; rows : list (list float) }.

Definition shape0 (m : matrix) : nat := length (rows m).

(** Every row of a 2-D array has [shape1] entries. *)
Definition wf_matrix (m : matrix) : Prop :=
  Forall (fun r => length r = shape1 m) (rows m).

(** The arrays the constructor is given: a vector of length M, or an
    N x M matrix. *)
Inductive ndarray : Type :=
  | Array1D (v : list float)
  | Array2D (m : matrix).

Definition ndim (a : ndarray) : nat :=
  match a with
  | Array1D _ => 1
  | Array2D _ => 2
  end.

Definition wf_ndarray (a : ndarray) : Prop :=
  match a with
  | Array1D _ => True
  | Array2D m => wf_matrix m
  end.

(** [np.expand_dims(v, axis=0)]. *)
Definition expand_dims (v : list float) : matrix :=
  {| shape1 := length v; rows := [v] |}.

(** Lines 67-68: [if data.ndim == 1 : data = np.expand_dims(data, axis=0)]. *)
Definition ensure_2d (data : ndarray) : matrix :=
  match data with
  | Array1D v => expand_dims v
  | Array2D m => m
  end.

Module Np.

(** [np.where(mask)[0]]: the positions of the true entries, ascending. *)
Fixpoint where_from (i : nat) (mask : list bool) : list nat :=
  match mask with
  | [] => []
  | c :: mask' =>
      if c then i :: where_from (S i) mask' else where_from (S i) mask'
  end.

Definition where_ (mask : list bool) : list nat := where_from 0 mask.

(** [g.cumsum()]: the running totals, accumulated from left to right. *)
Fixpoint cumsum_from (acc : float) (g : list float) : list float :=
  match g with
  | [] => []
  | x :: g' => let acc' := (acc + x)%float in acc' :: cumsum_from acc' g'
  end.

Definition cumsum (g : list float) : list float :=
  match g with
  | [] => []
  | x :: g' => x :: cumsum_from x g'
  end.

(** [np.dot(u, v)] of two vectors as numpy's own loop computes it: the
    products, added in index order.  A numpy that is built on a BLAS
    library hands the sum to the library, which may add the products in
    another order and round differently in the last digits. *)
Definition dot (u v : list float) : float :=
  foldl (fun acc p => (acc + fst p * snd p)%float) 0%float (zip u v).

(** [x ** 2] on a float array: numpy evaluates the scalar power 2 as the
    square [x * x]. *)
Definition square (x : float) : float := (x * x)%float.

(** [(r1 == r2).all()] on two rows and, on the structured view that
    [np.unique] works on, [r1 != r2] (some field differs).  Both use the
    float comparison: NaN differs from everything, [-0.0 == 0.0]. *)
Definition row_eq (r1 r2 : list float) : bool :=
  forallb (fun p => (fst p =? snd p)%float) (zip r1 r2).

Definition row_ne (r1 r2 : list float) : bool :=
  existsb (fun p => negb (fst p =? snd p)%float) (zip r1 r2).

(** The order numpy sorts floats by ([DOUBLE_compare], with
    [LT(a,b) = a < b || (b != b && a == a)]): the float order, every NaN
    last. *)
Definition DOUBLE_LT (a b : float) : bool :=
  (a <? b)%float || (negb (b =? b)%float && (a =? a)%float).

Definition DOUBLE_compare (a b : float) : comparison :=
  if DOUBLE_LT a b then Lt else if DOUBLE_LT b a then Gt else Eq.

(** A structured element is compared field by field ([VOID_compare]). *)
Fixpoint VOID_compare (r1 r2 : list float) : comparison :=
  match r1, r2 with
  | [], [] => Eq
  | [], _ :: _ => Lt
  | _ :: _, [] => Gt
  | a :: r1', c :: r2' =>
      match DOUBLE_compare a c with
      | Eq => VOID_compare r1' r2'
      | o => o
      end
  end.

Section Unique.

Variable tmp : list (list float).

Definition row (i : nat) : list float := tmp !!! i.

(** [ar.argsort(kind='mergesort')]: the stable sort of the positions by
    their rows.  A position is put in front of the first one whose row is
    not smaller, and the positions are added from the last to the first,
    so that equal rows stay in the order of their positions. *)
Fixpoint insert_index (i : nat) (l : list nat) : list nat :=
  match l with
  | [] => [i]
  | j :: l' =>
      match VOID_compare (row i) (row j) with
      | Gt => j :: insert_index i l'
      | _ => i :: l
      end
  end.

Definition argsort : list nat :=
  foldr insert_index [] (seq 0 (length tmp)).

(** [mask[:1] = True; mask[1:] = aux[1:] != aux[:-1]], then [perm[mask]]:
    a position of the sorted sequence is kept when its row differs from
    the row just before it. *)
Fixpoint keep_changes (p : nat) (perm : list nat) : list nat :=
  match perm with
  | [] => []
  | i :: perm' =>
      if row_ne (row i) (row p) then i :: keep_changes i perm'
      else keep_changes i perm'
  end.

(** The second result of [np.unique(view, return_index=True)]: one
    position per distinct row, in the order of the sorted rows. *)
Definition unique_index : list nat :=
  match argsort with
  | [] => []
  | i :: perm' => i :: keep_changes i perm'
  end.

End Unique.

End Np.

(** Python's [sorted] on a list of positions. *)
Definition sorted (l : list nat) : list nat := merge_sort Nat.le l.

(** ** The scheme object *)

(** One entry of [self.shells]: a dictionary with the keys ['b'], ['G'],
    ['Delta'], ['delta'], ['TE'], ['wf'], ['idx'] and ['grad'].  [None] is
    Python's [None]. *)
Record shell : Type := Shell {
  shell_b : float;
  shell_G : option float;
  shell_Delta : option float;
  shell_delta : option float;
  shell_TE : option float;
  shell_wf : option (list float);
  shell_idx : list nat;
  shell_grad : list (list float)
}.

(** The attributes [load_from_table] sets on [self]. *)
Record Scheme : Type := MkScheme {
  raw : matrix;
  version : nat;
  b : list float;
  b0_thr : float;
  b0_idx : list nat;
  b0_count : nat;
  dwi_idx : list nat;
  dwi_count : nat;
  shells : list shell
}.

Inductive error : Type :=
  | UnrecognizedFormat.

Inductive result (A : Type) : Type :=
  | Ok (a : A)
  | Err (e : error).
Arguments Ok {A} a.
Arguments Err {A} e.

(** Modelled from the spec: [amico.util.ERROR] is not part of the sources
    at hand.  The spec (sections 4.1 and 7) has the unrecognized column
    count fatal: construction fails with [UnrecognizedFormat] and no object
    is produced. *)
Definition ERROR {A : Type} (e : error) : result A := Err e.

(** Line 81, for one row of an Nx7 table. *)
Definition stejskal_tanner_b (r : list float) : float :=
  (Np.square (267.513e6 * (r !!! 3%nat) * (r !!! 5%nat))
   * ((r !!! 4%nat) - (r !!! 5%nat) / 3.0) * 1e-6)%float.

(** Line 97: [self.raw[idx,0:3] = -self.raw[idx,0:3]].  The right-hand
    side is read before anything is written. *)
Definition negate_directions (idx : list nat) (rs : list (list float))
    : list (list float) :=
  let rhs := map (fun i => map PrimFloat.opp (take 3 (rs !!! i))) idx in
  foldl (fun rs' iv => alter (fun r => snd iv ++ drop 3 r) (fst iv) rs')
        rs (zip idx rhs).

(** Lines 110-131: the dictionary of one shell, for the distinct row [u]
    and its b-value [bu]. *)
Definition make_shell (version : nat) (rs tmp : list (list float))
    (u : list float) (bu : float) : shell :=
  let idx := Np.where_ (map (fun r => Np.row_eq r u) tmp) in
  let grad := map (fun j => take 3 (rs !!! j)) idx in
  if Nat.eqb version 0 then
    Shell bu None None None None None idx grad
  else if Nat.eqb version 1 then
    Shell bu (Some (u !!! 0)) (Some (u !!! 1)) (Some (u !!! 2))
          (Some (u !!! 3)) None idx grad
  else
    Shell bu None None None (Some (u !!! 0)) (Some (drop 1 u)) idx grad.

(** Lines 107-132: the loop that appends the shells to [self.shells]. *)
Definition shells_loop (version : nat) (b0_thr : float)
    (rs tmp schemeUnique : list (list float)) (bUnique : list float)
    : list shell :=
  foldl (fun acc i =>
           if ((bUnique !!! i) <=? b0_thr)%float then acc
           else acc ++ [make_shell version rs tmp (schemeUnique !!! i)
                                   (bUnique !!! i)])
        [] (seq 0 (length schemeUnique)).

Section Dot.

(** [np.dot]: the value numpy returns for two float64 vectors is the sum
    of their products as the library it is built on adds them.  The code
    that calls it takes it as a parameter; [Np.dot] is one such function. *)
Variable np_dot : list float -> list float -> float.

(** [compute1D_b(self, g, TE=0.100, unit='usual')].  An argument that is
    left out is [None] here and takes its default.  The waveform has at
    least one sample, as it has in a table: with none, line 196 divides
    by [len(g)] = 0, which Python refuses for a [float] such as the
    default TE. *)
Definition compute1D_b_with (g : list float) (TE : option float)
    (unit : option string) : float :=
  let TE := default 0.100%float TE in
  let unit := default "usual" unit in
  let dt := (TE / float_of_nat (length g))%float in
  let gamma := 2.6751987E8%float in
  let q := map (fun c => (c * dt * gamma)%float) (Np.cumsum g) in
  let b := (np_dot q q * dt)%float in
  if String.eqb unit "usual" then (b / 1000000)%float
  else if String.eqb unit "SI" then b
  else b.

(** Lines 76-86: the version and the b-values, from the column count. *)
Definition version_and_b_with (m : matrix) : result (nat * list float) :=
  if Nat.eqb (shape1 m) 4 then
    Ok (0, map (fun r => r !!! 3) (rows m))
  else if Nat.eqb (shape1 m) 7 then
    Ok (1, map stejskal_tanner_b (rows m))
  else if Nat.ltb 7 (shape1 m) then
    Ok (2, map (fun r => compute1D_b_with (drop 4 r) (Some (r !!! 3)) None)
               (rows m))
  else ERROR UnrecognizedFormat.

(** [load_from_table(self, data, b0_thr=0)].  [self.raw] is the array that
    is given (a 1-D one seen as a single row), normalized in place; [b] for
    an Nx4 table is a view of its column 3, which the normalization does
    not write. *)
Definition load_from_table_with (data : ndarray) (b0_thr : float)
    : result Scheme :=
  let raw0 := ensure_2d data in
  match version_and_b_with raw0 with
  | Err e => Err e
  | Ok (version, b) =>
      let b0_idx := Np.where_ (map (fun x => (x <=? b0_thr)%float) b) in
      let b0_count := length b0_idx in
      let dwi_idx := Np.where_ (map (fun x => (b0_thr <? x)%float) b) in
      let dwi_count := length dwi_idx in
      let idx :=
        Np.where_ (map (fun r => ((r !!! 1%nat) <? 0)%float) (rows raw0)) in
      let rs := negate_directions idx (rows raw0) in
      let tmp := map (drop 3) rs in
      let schemeUniqueInd := Np.unique_index tmp in
      let schemeUnique := map (fun index => tmp !!! index)
                              (sorted schemeUniqueInd) in
      let bUnique := map (fun index => b !!! index)
                         (sorted schemeUniqueInd) in
      Ok {| raw := {| shape1 := shape1 raw0; rows := rs |};
            version := version;
            b := b;
            b0_thr := b0_thr;
            b0_idx := b0_idx;
            b0_count := b0_count;
            dwi_idx := dwi_idx;
            dwi_count := dwi_count;
            shells := shells_loop version b0_thr rs tmp schemeUnique bUnique |}
  end.

End Dot.

(** The same three with [Np.dot], numpy's own loop, for [np.dot]. *)
Definition compute1D_b (g : list float) (TE : option float)
    (unit : option string) : float :=
  compute1D_b_with Np.dot g TE unit.

Definition version_and_b (m : matrix) : result (nat * list float) :=
  version_and_b_with Np.dot m.

Definition load_from_table (data : ndarray) (b0_thr : float)
    : result Scheme :=
  load_from_table_with Np.dot data b0_thr.

(** [Scheme(data, b0_thr=0)] on an array.  (Given a file name, [__init__]
    reads the table from the file and then does the same.) *)
Definition Scheme_init (data : ndarray) (b0_thr : option float)
    : result Scheme :=
  load_from_table data (default 0%float b0_thr).

(** The property [nS]. *)
Definition nS (self : Scheme) : nat := b0_count self + dwi_count self.

(** What [to_version_1] returns: [self] itself, a newly built scheme, or
    nothing (Python's [None]). *)
Inductive returned : Type :=
  | ReturnsSelf
  | ReturnsNew (s : Scheme)
  | ReturnsNone.

(** Lines 164-174, for one row of [dataBis]: [value] is the row's entry of
    [self.b], [r] its row of [self.raw]. *)
Definition to_version_1_row (value : float) (r : list float) : list float :=
  let gamma := 267.513e6%float in
  let delta := 0.010%float in
  let Delta := 0.025%float in
  let gMax :=
    PrimFloat.sqrt
      (value / (gamma * gamma * delta * delta * (Delta - delta / 3)))%float in
  take 3 r ++ [gMax; Delta; delta; r !!! 3].

(** [to_version_1(self)]: the value returned, and [self] after the call. *)
Definition to_version_1 (self : Scheme) : result (returned * Scheme) :=
  if Nat.eqb (version self) 1 then Ok (ReturnsSelf, self)
  else if Nat.eqb (version self) 2 then
    let dataBis :=
      {| shape1 := 7;
         rows := zip_with to_version_1_row (b self) (rows (raw self)) |} in
    match Scheme_init (Array2D dataBis) None with
    | Ok s' => Ok (ReturnsNew s', self)
    | Err e => Err e
    end
  else Ok (ReturnsNone, self).

(** ** Reading a scheme file: the header lines *)

(** Lines 33-38 of [__init__] count the header lines of a scheme file:
    the lines read before the first one that begins with a number.  A
    line is a Python [str]; its characters are 8-bit characters here, the
    code points below 256, among which [\d] matches the digits 0-9 only. *)

Module Re.

(** Python's [re], for the regular expressions the pattern of line 36 is
    made of: a character of a class, one expression after another, either
    of two, and any number of repetitions. *)
Inductive regex : Type :=
  | Empty
  | Eps
  | Class (p : Ascii.ascii -> bool)
  | Cat (r1 r2 : regex)
  | Alt (r1 r2 : regex)
  | Star (r : regex).

(** [r?] and [r+]. *)
Definition Opt (r : regex) : regex := Alt r Eps.

Definition Plus (r : regex) : regex := Cat r (Star r).

(** [r] matches the empty text. *)
Fixpoint nullable (r : regex) : bool :=
  match r with
  | Empty => false
  | Eps => true
  | Class _ => false
  | Cat r1 r2 => nullable r1 && nullable r2
  | Alt r1 r2 => nullable r1 || nullable r2
  | Star _ => true
  end.

(** What is left of [r] to match once the character [c] is read. *)
Fixpoint deriv (c : Ascii.ascii) (r : regex) : regex :=
  match r with
  | Empty => Empty
  | Eps => Empty
  | Class p => if p c then Eps else Empty
  | Cat r1 r2 =>
      Alt (Cat (deriv c r1) r2) (if nullable r1 then deriv c r2 else Empty)
  | Alt r1 r2 => Alt (deriv c r1) (deriv c r2)
  | Star r1 => Cat (deriv c r1) (Star r1)
  end.

(** [re.match(r, s) is not None]: some characters at the beginning of [s]
    (possibly none) match [r]. *)
Fixpoint match_ (r : regex) (s : string) : bool :=
  nullable r ||
  match s with
  | EmptyString => false
  | String c s' => match_ (deriv c r) s'
  end.

End Re.

(** The character classes [\d], [[+-]], [\.] and [[eE]]. *)
Definition is_digit (c : Ascii.ascii) : bool :=
  let n := Ascii.nat_of_ascii c in Nat.leb 48 n && Nat.leb n 57.

Definition is_sign (c : Ascii.ascii) : bool :=
  let n := Ascii.nat_of_ascii c in Nat.eqb n 43 || Nat.eqb n 45.

Definition is_dot (c : Ascii.ascii) : bool := Nat.eqb (Ascii.nat_of_ascii c) 46.

Definition is_exponent (c : Ascii.ascii) : bool :=
  let n := Ascii.nat_of_ascii c in Nat.eqb n 101 || Nat.eqb n 69.

(** The pattern of line 36: an optional sign [[+-]?]; then digits with an
    optional fraction (a dot and any number of digits), or a dot and
    digits; then an optional exponent [[eE][+-]?] with digits. *)
Definition number_pattern : Re.regex :=
  let d := Re.Class is_digit in
  Re.Cat (Re.Opt (Re.Class is_sign))
    (Re.Cat
       (Re.Alt (Re.Cat (Re.Plus d) (Re.Opt (Re.Cat (Re.Class is_dot) (Re.Star d))))
               (Re.Cat (Re.Class is_dot) (Re.Plus d)))
       (Re.Opt (Re.Cat (Re.Class is_exponent)
                       (Re.Cat (Re.Opt (Re.Class is_sign)) (Re.Plus d))))).

(** The characters [str.strip()] removes: tab, line feed, vertical tab,
    form feed, carriage return, the separators 28-31, space, next line
    (133) and no-break space (160). *)
Definition is_whitespace (c : Ascii.ascii) : bool :=
  let n := Ascii.nat_of_ascii c in
  (Nat.leb 9 n && Nat.leb n 13) || (Nat.leb 28 n && Nat.leb n 32)
  || Nat.eqb n 133 || Nat.eqb n 160.

Fixpoint lstrip (s : string) : string :=
  match s with
  | EmptyString => EmptyString
  | String c s' => if is_whitespace c then lstrip s' else s
  end.

(** [s.strip()]. *)
Definition strip (s : string) : string :=
  String.rev (lstrip (String.rev (lstrip s))).

(** Lines 33-38: the number [n] of lines read before the first one that,
    stripped, begins with a number; all of them if there is none. *)
Fixpoint header_lines (fid : list string) : nat :=
  match fid with
  | [] => 0
  | line :: fid' =>
      if Re.match_ number_pattern (strip line) then 0
      else S (header_lines fid')
  end.

(** ** Writing a Camino scheme file *)

Definition newline : string := String (Ascii.ascii_of_nat 10) EmptyString.

Section Camino.

(** The conversions of a float to text belong to Python and numpy, not to
    this repository: the writer is parametric in [str(x)] and
    [round(x, ndigits)] of a [float64], and in the text that
    [np.savetxt(path, X, fmt, delimiter, header, comments)] leaves in the
    file. *)
Variable str_float : float -> string.
Variable round_float : float -> nat -> float.
Variable savetxt :
  list (list float) -> string -> string -> string -> string -> string.

(** [write_Camino_wf(self, nb_steps, TE, Gx, Gy, Gz, schemefile)].  The
    open file is the text written so far; every [write] appends to it. *)
Definition write_Camino_wf (nb_steps : nat) (TE : float)
    (Gx Gy Gz : list float) (schemefile : string) : string :=
  let dt := (TE / float_of_nat nb_steps)%float in
  let schemefile :=
    schemefile +:+ (pretty nb_steps +:+ " " +:+ str_float dt +:+ " ") in
  let nb_dec := 5 in
  let schemefile :=
    foldl (fun f i =>
             let f := f +:+ (str_float (round_float (Gx !!! i) nb_dec) +:+ " ") in
             let f := f +:+ (str_float (round_float (Gy !!! i) nb_dec) +:+ " ") in
             f +:+ (str_float (round_float (Gz !!! i) nb_dec) +:+ " "))
          schemefile (seq 0 nb_steps) in
  schemefile +:+ newline.

(** [write_Camino_schemefile(self, schemefile_path)]: the content of the
    file it writes, [None] when it writes no file. *)
Definition write_Camino_schemefile (self : Scheme) : option string :=
  if Nat.eqb (version self) 1 then
    Some (savetxt (rows (raw self)) "%15.8e" " " "VERSION: STEJSKALTANNER" "")
  else if Nat.eqb (version self) 2 then
    let schemefile := "" in
    let schemefile :=
      schemefile +:+ ("VERSION: GRADIENT_WAVEFORM " +:+ newline) in
    Some
      (foldl (fun f i =>
                let r := rows (raw self) !!! i in
                let g1D := drop 4 r in
                let x := r !!! 0 in
                let y := r !!! 1 in
                let z := r !!! 2 in
                let TE := r !!! 3 in
                let nb_steps := length g1D in
                write_Camino_wf nb_steps TE
                  (map (fun g => (x * g)%float) g1D)
                  (map (fun g => (y * g)%float) g1D)
                  (map (fun g => (z * g)%float) g1D) f)
             schemefile (seq 0 (shape0 (raw self))))
  else None.

End Camino.

(** * Notions used to state the properties *)

(** ** Formats, columns and descriptors *)

(** The three encodings of section 3 of the spec, and the one a version
    number stands for. *)
Inductive Format : Type := BVALUE | STEJSKAL_TANNER | WAVEFORM.

Definition format_of (s : Scheme) : option Format :=
  match version s with
  | 0 => Some BVALUE
  | 1 => Some STEJSKAL_TANNER
  | 2 => Some WAVEFORM
  | _ => None
  end.

(** The column count M of the array given to the constructor. *)
Definition column_count (data : ndarray) : nat :=
  match data with
  | Array1D v => length v
  | Array2D m => shape1 m
  end.

(** The rows lines 96-97 select: those whose column 1 is negative. *)
Definition negative_y (m : matrix) : list nat :=
  Np.where_ (map (fun r => ((r !!! 1%nat) <? 0)%float) (rows m)).

(** A row with its columns 0-2 negated. *)
Definition flip_row (r : list float) : list float :=
  map PrimFloat.opp (take 3 r) ++ drop 3 r.

(** The b-value of a row as a function of its descriptor (columns 3..end),
    for each of the three versions of lines 76-84. *)
Definition b_of_descriptor (ver : nat) (d : list float) : float :=
  if Nat.eqb ver 0 then d !!! 0
  else if Nat.eqb ver 1 then
    (Np.square (267.513e6 * (d !!! 0%nat) * (d !!! 2%nat))
     * ((d !!! 1%nat) - (d !!! 2%nat) / 3.0) * 1e-6)%float
  else compute1D_b (drop 1 d) (Some (d !!! 0)) None.

(** The descriptor a shell dictionary carries, per version: the b-value
    alone, [G, Delta, delta, TE], or [TE] followed by the waveform. *)
Definition shell_descriptor (ver : nat) (sh : shell) : option (list float) :=
  if Nat.eqb ver 0 then Some [shell_b sh]
  else if Nat.eqb ver 1 then
    match shell_G sh, shell_Delta sh, shell_delta sh, shell_TE sh with
    | Some G, Some Delta, Some delta, Some TE => Some [G; Delta; delta; TE]
    | _, _, _, _ => None
    end
  else
    match shell_TE sh, shell_wf sh with
    | Some TE, Some wf => Some (TE :: wf)
    | _, _ => None
    end.

(** No entry of the list is a NaN. *)
Definition nan_free (l : list float) : bool :=
  forallb (fun x => negb (PrimFloat.is_nan x)) l.

(** ** First occurrences of the distinct rows *)

(** Row [i] is the first of its value: no earlier row equals it. *)
Definition is_first (tmp : list (list float)) (i : nat) : bool :=
  forallb (fun j => negb (Np.row_eq (tmp !!! j) (tmp !!! i))) (seq 0 i).

(** The positions of the first occurrences, scanning rows 0, 1, 2, ... *)
Definition first_occurrences (tmp : list (list float)) : list nat :=
  filter (fun i => is_first tmp i = true) (seq 0 (length tmp)).

(** The rows the shell loop keeps: the first occurrences whose b-value is
    not at or below the threshold. *)
Definition shell_rows (b0_thr : float) (b : list float)
    (tmp : list (list float)) : list nat :=
  filter (fun r => ((b !!! r) <=? b0_thr)%float = false) (first_occurrences tmp).

(** ** The waveform formula, as section 4.2 of the spec words it *)




(** ** The text of a waveform file, as section 4.6 of the spec words it *)

(** The pieces of a text, one after the other. *)
Definition join (l : list string) : string := foldr String.append "" l.

Section CaminoSpec.

Variable str_float : float -> string.
Variable round_float : float -> nat -> float.

(** One sample: the sample times x, y and z, each rounded to 5 decimals
    and followed by a space. *)
Definition camino_sample (x y z g : float) : string :=
  str_float (round_float (x * g)%float 5) +:+ " " +:+
  str_float (round_float (y * g)%float 5) +:+ " " +:+
  str_float (round_float (z * g)%float 5) +:+ " ".

(** One row: the sample count, dt = TE / sample count, the samples, and a
    newline. *)
Definition camino_row (r : list float) : string :=
  let wf := drop 4 r in
  pretty (length wf) +:+ " " +:+
  str_float ((r !!! 3%nat) / float_of_nat (length wf))%float +:+ " " +:+
  join (map (camino_sample (r !!! 0) (r !!! 1) (r !!! 2)) wf) +:+
  newline.

(** The file: a header line, then the rows. *)
Definition camino_waveform_text (header : string) (self : Scheme) : string :=
  header +:+ newline +:+ join (map camino_row (rows (raw self))).

End CaminoSpec.

(** ** Exact values and tolerances *)

(** The exact value of a finite float, as a rational. *)
Definition Q_of_float (x : float) : option Q :=
  match Prim2SF x with
  | S754_zero _ => Some 0%Q
  | S754_finite s m e =>
      Some ((if s then inject_Z (Zneg m) else inject_Z (Zpos m)) * Qpower 2 e)%Q
  | _ => None
  end.

(** [x] is a finite float within the relative tolerance [tol] of the
    rational [expected]. *)
Definition within_rel (tol : Q) (x : float) (expected : Q) : bool :=
  match Q_of_float x with
  | Some q => Qle_bool (Qabs (q - expected)) (tol * Qabs expected)
  | None => false
  end.

(** [x] is within the relative tolerance [tol] of the finite float [y]. *)
Definition close_to (tol : Q) (x y : float) : bool :=
  match Q_of_float y with
  | Some q => within_rel tol x q
  | None => false
  end.

(** (267.513e6 * 1e-3 * 0.010)^2 * (0.025 - 0.010/3) * 1e-6, exactly. *)
Definition st_expected : Q :=
  ((267513000 * (1 # 1000) * (10 # 1000)) ^ 2
   * ((25 # 1000) - (10 # 1000) / 3) * (1 # 1000000))%Q.

(** ** The order of floats, through integer keys *)

(** Every float gets a key of three integers; the lexicographic order of
    the keys is the order numpy sorts floats by.  Both zeros have the same
    key, each other float has a key of its own, and the key of NaN is the
    largest. *)
Definition fkey (x : spec_float) : Z * Z * Z :=
  match x with
  | S754_nan => (3, 0, 0)
  | S754_infinity false => (2, 0, 0)
  | S754_infinity true => (-2, 0, 0)
  | S754_zero _ => (0, 0, 0)
  | S754_finite false m e => (1, e, Zpos m)
  | S754_finite true m e => (-1, - e, Zneg m)
  end%Z.

Definition key (a : float) : Z * Z * Z := fkey (Prim2SF a).

Definition rowkey (r : list float) : list (Z * Z * Z) := map key r.

Definition lex3 (p q : Z * Z * Z) : comparison :=
  match (p.1.1 ?= q.1.1)%Z with
  | Eq => match (p.1.2 ?= q.1.2)%Z with
          | Eq => (p.2 ?= q.2)%Z
          | o => o
          end
  | o => o
  end.

Fixpoint lexl (k1 k2 : list (Z * Z * Z)) : comparison :=
  match k1, k2 with
  | [], [] => Eq
  | [], _ :: _ => Lt
  | _ :: _, [] => Gt
  | p :: k1', q :: k2' =>
      match lex3 p q with
      | Eq => lexl k1' k2'
      | o => o
      end
  end.

Definition SFis_nan (x : spec_float) : bool :=
  match x with S754_nan => true | _ => false end.

Definition SFis_zero (x : spec_float) : bool :=
  match x with S754_zero _ => true | _ => false end.

Definition fnan (a : float) : bool := SFis_nan (Prim2SF a).

(** The steps the case analyses on two finite floats share: the
    comparisons of their exponents [e], [e'] and mantissas [m], [m']. *)
Ltac finite_finite e e' m m' :=
  cbn; rewrite ?Z.compare_opp;
  change (PosDef.Pos.compare_cont Eq) with Pos.compare;
  rewrite ?(Z.compare_antisym e e'), ?(Pos.compare_antisym m m');
  destruct (e ?= e')%Z; cbn; try reflexivity;
  destruct (m ?= m')%positive; reflexivity.

(** Replace every float known to be a zero by a zero, of either sign. *)
Ltac zero_cases :=
  repeat match goal with
    | H : SFis_zero ?x = true |- _ =>
        destruct x as [?|?| |? ? ?]; try discriminate H; clear H
    end.

Ltac sign_cases :=
  repeat match goal with s : bool |- _ => destruct s end; reflexivity.

(** Position [i] comes before position [j] in the stable sort of the rows:
    its row is smaller, or the rows have the same keys and [i < j]. *)
Definition before (tmp : list (list float)) (i j : nat) : Prop :=
  lexl (rowkey (Np.row tmp i)) (rowkey (Np.row tmp j)) = Lt \/
  (rowkey (Np.row tmp i) = rowkey (Np.row tmp j) /\ i < j).

(** ** Antipodal rows *)

(** Row [r'] is row [r], or its antipode when the Y of [r] is not zero:
    the same row with columns 0-2 negated. *)
Definition same_axis (r r' : list float) : Prop :=
  r' = r \/
  (r' = flip_row r /\
   ((r !!! 1%nat <? 0)%float = true \/ (0 <? r !!! 1%nat)%float = true)).

(** ** Texts that begin with a number *)

(** The text begins with a digit, or with a dot and then a digit. *)
Definition unsigned_start (s : string) : bool :=
  match s with
  | String c s' =>
      is_digit c ||
      (is_dot c && match s' with String c' _ => is_digit c' | EmptyString => false end)
  | EmptyString => false
  end.

(** The same, after one optional sign. *)
Definition starts_number (s : string) : bool :=
  match s with
  | String c s' => if is_sign c then unsigned_start s' else unsigned_start s
  | EmptyString => false
  end.

(** A regular expression that matches no text at all, by its shape. *)
Fixpoint dead (r : Re.regex) : bool :=
  match r with
  | Re.Empty => true
  | Re.Cat r1 r2 => dead r1 || dead r2
  | Re.Alt r1 r2 => dead r1 && dead r2
  | _ => false
  end.

(** The texts a regular expression matches, in full. *)
Inductive matches : Re.regex -> string -> Prop :=
  | matches_eps : matches Re.Eps EmptyString
  | matches_class p c : p c = true -> matches (Re.Class p) (String c EmptyString)
  | matches_cat r1 r2 s1 s2 :
      matches r1 s1 -> matches r2 s2 -> matches (Re.Cat r1 r2) (s1 +:+ s2)
  | matches_alt_l r1 r2 s : matches r1 s -> matches (Re.Alt r1 r2) s
  | matches_alt_r r1 r2 s : matches r2 s -> matches (Re.Alt r1 r2) s
  | matches_star_nil r : matches (Re.Star r) EmptyString
  | matches_star_cons r s1 s2 :
      matches r s1 -> matches (Re.Star r) s2 -> matches (Re.Star r) (s1 +:+ s2).

(** ** Sample tables *)

(** The end-to-end scenario of section 8 of the spec. *)
Definition ex_bvalue : ndarray :=
  Array2D (Matrix 4 [[1; 0; 0; 1000]; [0; 1; 0; 0]; [0; -1; 0; 0]]%float).

Definition ex_stejskal_tanner : ndarray :=
  Array2D (Matrix 7 [[1; 0; 0; 2e-3; 0.025; 0.010; 0.1];
                     [0; -1; 0; 1e-3; 0.025; 0.010; 0.1];
                     [0; 0; 1; 2e-3; 0.025; 0.010; 0.1];
                     [0; 1; 0; 0; 0.025; 0.010; 0.1]]%float).

Definition ex_waveform : ndarray :=
  Array2D (Matrix 8 [[1; 0; 0; 0.1; 1; 1; 1; 1];
                     [0; -1; 0; 0.1; 0; 0; 0; 0];
                     [0; 0; 1; 0.1; 1; 1; 1; 1]]%float).

(** G = 1e308, Delta = 1, delta = 3: the product overflows to infinity,
    [Delta - delta/3] is 0, and the b-value is NaN. *)
Definition ex_nan_b : ndarray :=
  Array2D (Matrix 7 [[1; 0; 0; 1e308; 1; 3; 0.1]]%float).

(** A NaN echo time, which the b-value of an Nx7 table does not read. *)
Definition ex_nan_TE : ndarray :=
  Array2D (Matrix 7 [[1; 0; 0; 1e-3; 0.025; 0.010; nan]]%float).

(** A NaN direction component. *)
Definition ex_nan_y : ndarray :=
  Array2D (Matrix 4 [[1; nan; 0; 1000]]%float).

(** The scheme built from a table (an empty scheme if construction fails). *)
Definition scheme_of (data : ndarray) (b0_thr : float) : Scheme :=
  match load_from_table data b0_thr with
  | Ok s => s
  | Err _ => MkScheme (Matrix 0 []) 0 [] 0 [] 0 [] 0 []
  end.

(** * Properties *)

(** ** Lists and texts *)

Lemma StronglySorted_lt_le l : StronglySorted lt l -> StronglySorted Nat.le l.
Proof.
  induction 1 as [|x l Hs IH Hx]; constructor; auto.
  eapply Forall_impl; [exact Hx|]. intros; simpl in *; lia.
Qed.

Lemma StronglySorted_lt_NoDup l : StronglySorted lt l -> NoDup l.
Proof.
  induction 1 as [|x l Hs IH Hx]; constructor; auto.
  intros Hin. eapply Forall_forall in Hx; [|exact Hin]. lia.
Qed.

Lemma StronglySorted_filter {A} (R : relation A) (P : A -> Prop)
    `{forall x, Decision (P x)} (l : list A) :
  StronglySorted R l -> StronglySorted R (filter P l).
Proof.
  induction 1 as [|x l Hs IH Hx]; [constructor|].
  rewrite filter_cons. destruct (decide (P x)); [|exact IH].
  constructor; [exact IH|]. apply Forall_forall. intros y Hy.
  apply list_elem_of_filter in Hy as [_ Hy]. eapply Forall_forall in Hx; eauto.
Qed.

Lemma seq_sorted s n : StronglySorted lt (seq s n).
Proof.
  revert s. induction n as [|n IH]; intros s; simpl; constructor; [apply IH|].
  apply Forall_forall. intros j Hj. apply elem_of_seq in Hj. lia.
Qed.

Lemma forallb_false_exists {A} (f : A -> bool) (l : list A) :
  forallb f l = false -> exists x, In x l /\ f x = false.
Proof.
  induction l as [|x l IH]; simpl; [discriminate|].
  destruct (f x) eqn:E; simpl.
  - intros (y & Hy & Hf)%IH. eauto.
  - intros _. eauto.
Qed.

Lemma foldl_ext_in {A B} (f g : B -> A -> B) (l : list A) (a : B) :
  (forall acc x, x ∈ l -> f acc x = g acc x) -> foldl f a l = foldl g a l.
Proof.
  revert a. induction l as [|x l IH]; intros a H; simpl; [reflexivity|].
  rewrite (H a x) by (by left). apply IH. intros acc y Hy. apply H. by right.
Qed.

Lemma foldl_append_if {A B} (c : A -> bool) (g : A -> B) (l : list A) (acc : list B) :
  foldl (fun acc i => if c i then acc else acc ++ [g i]) acc l
  = acc ++ omap (fun i => if c i then None else Some (g i)) l.
Proof.
  revert acc. induction l as [|x l IH]; intros acc; cbn [foldl omap list_omap].
  - by rewrite app_nil_r.
  - rewrite IH. destruct (c x); [reflexivity|]. by rewrite <- app_assoc.
Qed.

Lemma omap_ext_in {A B} (f g : A -> option B) (l : list A) :
  (forall x, x ∈ l -> f x = g x) -> omap f l = omap g l.
Proof.
  induction l as [|x l IH]; intros H; cbn [omap list_omap]; [reflexivity|].
  rewrite (H x) by (by left). rewrite IH; [reflexivity|].
  intros y Hy. apply H. by right.
Qed.

Lemma omap_if_filter {A B} (c : A -> bool) (g : A -> B) (l : list A) :
  omap (fun x => if c x then None else Some (g x)) l
  = map g (filter (fun x => c x = false) l).
Proof.
  induction l as [|x l IH]; cbn [omap list_omap]; [reflexivity|].
  rewrite filter_cons, IH. destruct (c x) eqn:E.
  - rewrite decide_False by congruence. reflexivity.
  - rewrite decide_True by reflexivity. reflexivity.
Qed.

Lemma omap_seq_lookup {A B} `{!Inhabited A} (h : A -> option B) (pre l : list A) :
  omap (fun i => h ((pre ++ l) !!! i)) (seq (length pre) (length l)) = omap h l.
Proof.
  revert pre. induction l as [|x l IH]; intros pre; [reflexivity|].
  assert (omap (fun i => h ((pre ++ x :: l) !!! i)) (seq (S (length pre)) (length l))
          = omap h l) as Htail.
  { rewrite <- (IH (pre ++ [x])), length_app, Nat.add_1_r, <- app_assoc. reflexivity. }
  cbn [length seq omap list_omap]. rewrite Htail.
  rewrite (list_lookup_total_middle pre l x) by reflexivity. reflexivity.
Qed.

Lemma map_seq_lookup {A B} `{!Inhabited A} (h : A -> B) (pre l : list A) :
  map (fun i => h ((pre ++ l) !!! i)) (seq (length pre) (length l)) = map h l.
Proof.
  revert pre. induction l as [|x l IH]; intros pre; [reflexivity|].
  assert (map (fun i => h ((pre ++ x :: l) !!! i)) (seq (S (length pre)) (length l))
          = map h l) as Htail.
  { rewrite <- (IH (pre ++ [x])), length_app, Nat.add_1_r, <- app_assoc. reflexivity. }
  cbn [length seq map]. rewrite Htail.
  rewrite (list_lookup_total_middle pre l x) by reflexivity. reflexivity.
Qed.

Lemma append_assoc (s1 s2 s3 : string) : (s1 +:+ s2) +:+ s3 = s1 +:+ (s2 +:+ s3).
Proof.
  induction s1 as [|c s1 IH]; [reflexivity|].
  change (String c ((s1 +:+ s2) +:+ s3) = String c (s1 +:+ (s2 +:+ s3))).
  f_equal. exact IH.
Qed.

Lemma append_nil_r (s1 : string) : s1 +:+ "" = s1.
Proof.
  induction s1 as [|c s1 IH]; [reflexivity|].
  change (String c (s1 +:+ "") = String c s1). f_equal. exact IH.
Qed.

Lemma foldl_append_join {A} (h : A -> string) (l : list A) (f : string) :
  foldl (fun f i => f +:+ h i) f l = f +:+ join (map h l).
Proof.
  revert f. induction l as [|x l IH]; intros f; simpl.
  - by rewrite append_nil_r.
  - rewrite IH. apply append_assoc.
Qed.

(** ** Floats: comparisons through keys *)

Lemma lex3_antisym p q : lex3 p q = CompOpp (lex3 q p).
Proof.
  unfold lex3.
  rewrite (Z.compare_antisym q.1.1), (Z.compare_antisym q.1.2),
    (Z.compare_antisym q.2).
  destruct (q.1.1 ?= p.1.1)%Z, (q.1.2 ?= p.1.2)%Z, (q.2 ?= p.2)%Z; reflexivity.
Qed.

Lemma lex3_eq p q : lex3 p q = Eq <-> p = q.
Proof.
  unfold lex3. destruct p as [[a b] c], q as [[a' b'] c']; simpl.
  destruct (Z.compare_spec a a'), (Z.compare_spec b b'), (Z.compare_spec c c');
    split; intros Hpq; try discriminate; try (inversion Hpq; lia); subst; reflexivity.
Qed.

Lemma lex3_lt_trans p q r : lex3 p q = Lt -> lex3 q r = Lt -> lex3 p r = Lt.
Proof.
  unfold lex3. destruct p as [[a b] c], q as [[a' b'] c'], r as [[a'' b''] c'']; simpl.
  destruct (Z.compare_spec a a'), (Z.compare_spec b b'), (Z.compare_spec c c');
  destruct (Z.compare_spec a' a''), (Z.compare_spec b' b''), (Z.compare_spec c' c'');
  destruct (Z.compare_spec a a''), (Z.compare_spec b b''), (Z.compare_spec c c'');
  intros; try discriminate; try reflexivity; lia.
Qed.

Lemma SFeqb_refl x : SFeqb x x = negb (SFis_nan x).
Proof.
  destruct x as [s|s| |s m e]; try destruct s; try reflexivity;
    unfold SFeqb, SFcompare; rewrite Z.compare_refl, Pos.compare_cont_refl; reflexivity.
Qed.

Lemma DOUBLE_compare_key a c : Np.DOUBLE_compare a c = lex3 (key a) (key c).
Proof.
  unfold Np.DOUBLE_compare, Np.DOUBLE_LT, key.
  rewrite !FloatAxioms.ltb_spec, !FloatAxioms.eqb_spec, !SFeqb_refl.
  destruct (Prim2SF a) as [s|s| |s m e], (Prim2SF c) as [s'|s'| |s' m' e'];
    try destruct s; try destruct s'; try reflexivity.
  all: unfold SFltb, SFcompare, lex3, fkey; finite_finite e e' m m'.
Qed.

Lemma is_nan_fnan a : PrimFloat.is_nan a = fnan a.
Proof.
  unfold PrimFloat.is_nan, fnan. rewrite FloatAxioms.eqb_spec, SFeqb_refl.
  apply negb_involutive.
Qed.

Lemma key_fnan a : fnan a = (Z.eqb (key a).1.1 3).
Proof. unfold fnan, key. destruct (Prim2SF a) as [[]|[]| |[] ? ?]; reflexivity. Qed.

Lemma key_eq_fnan a c : key a = key c -> fnan a = fnan c.
Proof. intros H. rewrite !key_fnan, H. reflexivity. Qed.

Lemma feqb_key a c :
  (a =? c)%float = match lex3 (key a) (key c) with Eq => negb (fnan c) | _ => false end.
Proof.
  unfold key, fnan. rewrite FloatAxioms.eqb_spec.
  destruct (Prim2SF a) as [s|s| |s m e], (Prim2SF c) as [s'|s'| |s' m' e'];
    try destruct s; try destruct s'; try reflexivity.
  all: unfold SFeqb, SFcompare, lex3, fkey; finite_finite e e' m m'.
Qed.

Lemma fltb_key a c :
  (a <? c)%float = match lex3 (key a) (key c) with Lt => negb (fnan c) | _ => false end.
Proof.
  unfold key, fnan. rewrite FloatAxioms.ltb_spec.
  destruct (Prim2SF a) as [s|s| |s m e], (Prim2SF c) as [s'|s'| |s' m' e'];
    try destruct s; try destruct s'; try reflexivity.
  all: unfold SFltb, SFcompare, lex3, fkey; finite_finite e e' m m'.
Qed.

Lemma fleb_key a c :
  (a <=? c)%float = match lex3 (key a) (key c) with Gt => false | _ => negb (fnan c) end.
Proof.
  unfold key, fnan. rewrite FloatAxioms.leb_spec.
  destruct (Prim2SF a) as [s|s| |s m e], (Prim2SF c) as [s'|s'| |s' m' e'];
    try destruct s; try destruct s'; try reflexivity.
  all: unfold SFleb, SFcompare, lex3, fkey; finite_finite e e' m m'.
Qed.

(** Floats with equal keys are equal, or both zeros; arithmetic maps
    floats with equal keys to floats with equal keys. *)
Lemma key_eq_cases a c :
  key a = key c ->
  a = c \/ (SFis_zero (Prim2SF a) = true /\ SFis_zero (Prim2SF c) = true).
Proof.
  unfold key. intros H.
  destruct (Prim2SF a) as [s|s| |s m e] eqn:Ha, (Prim2SF c) as [s'|s'| |s' m' e'] eqn:Hc;
    try destruct s; try destruct s'; try discriminate H; auto;
    left; apply Prim2SF_inj; rewrite Ha, Hc; try reflexivity.
  all: cbn in H; inversion H; subst; try reflexivity.
  assert (e = e') by lia. subst. reflexivity.
Qed.

Lemma key_mul a a' c c' :
  key a = key a' -> key c = key c' -> key (a * c)%float = key (a' * c')%float.
Proof.
  intros H1 H2.
  destruct (key_eq_cases _ _ H1) as [->|[? ?]];
    destruct (key_eq_cases _ _ H2) as [->|[? ?]];
    try reflexivity; unfold key; rewrite !FloatAxioms.mul_spec.
  all: zero_cases.
  all: try (destruct (Prim2SF _) as [?|?| |? ? ?]; reflexivity).
  reflexivity.
Qed.

Lemma key_add a a' c c' :
  key a = key a' -> key c = key c' -> key (a + c)%float = key (a' + c')%float.
Proof.
  intros H1 H2.
  destruct (key_eq_cases _ _ H1) as [->|[? ?]];
    destruct (key_eq_cases _ _ H2) as [->|[? ?]];
    try reflexivity; unfold key; rewrite !FloatAxioms.add_spec.
  all: zero_cases.
  all: try (destruct (Prim2SF _) as [[]|[]| |[] ? ?]; sign_cases).
  sign_cases.
Qed.

Lemma key_sub a a' c c' :
  key a = key a' -> key c = key c' -> key (a - c)%float = key (a' - c')%float.
Proof.
  intros H1 H2.
  destruct (key_eq_cases _ _ H1) as [->|[? ?]];
    destruct (key_eq_cases _ _ H2) as [->|[? ?]];
    try reflexivity; unfold key; rewrite !FloatAxioms.sub_spec.
  all: zero_cases.
  all: try (destruct (Prim2SF _) as [[]|[]| |[] ? ?]; sign_cases).
  sign_cases.
Qed.

Lemma key_div a a' c :
  key a = key a' -> key (a / c)%float = key (a' / c)%float.
Proof.
  intros H1. destruct (key_eq_cases _ _ H1) as [->|[? ?]]; [reflexivity|].
  unfold key. rewrite !FloatAxioms.div_spec.
  zero_cases.
  destruct (Prim2SF _) as [?|?| |? ? ?]; reflexivity.
Qed.

(** ** Rows: the order [np.unique] sorts by *)

Lemma lexl_antisym k1 k2 : lexl k1 k2 = CompOpp (lexl k2 k1).
Proof.
  revert k2. induction k1 as [|p k1 IH]; intros [|q k2]; simpl; try reflexivity.
  rewrite (lex3_antisym q p). destruct (lex3 p q); simpl; auto.
Qed.

Lemma lexl_eq k1 k2 : lexl k1 k2 = Eq <-> k1 = k2.
Proof.
  revert k2. induction k1 as [|p k1 IH]; intros [|q k2]; simpl; try (split; congruence).
  destruct (lex3 p q) eqn:E.
  - apply lex3_eq in E. subst. rewrite IH. split; congruence.
  - split; [discriminate|]. intros [= -> ->].
    assert (lex3 q q = Eq) by (apply lex3_eq; reflexivity). congruence.
  - split; [discriminate|]. intros [= -> ->].
    assert (lex3 q q = Eq) by (apply lex3_eq; reflexivity). congruence.
Qed.

Lemma lexl_lt_trans k1 k2 k3 : lexl k1 k2 = Lt -> lexl k2 k3 = Lt -> lexl k1 k3 = Lt.
Proof.
  revert k2 k3. induction k1 as [|p k1 IH]; intros [|q k2] [|r k3]; simpl; try congruence.
  destruct (lex3 p q) eqn:E1; try discriminate.
  - apply lex3_eq in E1. subst. destruct (lex3 q r); try congruence. apply IH.
  - destruct (lex3 q r) eqn:E2; try discriminate.
    + apply lex3_eq in E2. subst. rewrite E1. reflexivity.
    + rewrite (lex3_lt_trans _ _ _ E1 E2). reflexivity.
Qed.

Lemma VOID_compare_key r1 r2 : Np.VOID_compare r1 r2 = lexl (rowkey r1) (rowkey r2).
Proof.
  revert r2. induction r1 as [|a r1 IH]; intros [|c r2]; simpl; try reflexivity.
  rewrite DOUBLE_compare_key, IH. reflexivity.
Qed.

Lemma row_ne_eq r1 r2 : Np.row_ne r1 r2 = negb (Np.row_eq r1 r2).
Proof.
  unfold Np.row_ne, Np.row_eq. induction (zip r1 r2) as [|p l IH]; simpl; [reflexivity|].
  rewrite IH. destruct (p.1 =? p.2)%float; reflexivity.
Qed.

Lemma feqb_true a c : (a =? c)%float = true <-> key a = key c /\ fnan c = false.
Proof.
  rewrite feqb_key. destruct (lex3 (key a) (key c)) eqn:E.
  - apply lex3_eq in E. rewrite negb_true_iff. tauto.
  - split; [discriminate|]. intros [H _]. apply lex3_eq in H. congruence.
  - split; [discriminate|]. intros [H _]. apply lex3_eq in H. congruence.
Qed.

Lemma row_eq_true r1 r2 :
  length r1 = length r2 ->
  Np.row_eq r1 r2 = true <-> rowkey r1 = rowkey r2 /\ Forall (fun x => fnan x = false) r2.
Proof.
  unfold Np.row_eq. revert r2. induction r1 as [|a r1 IH]; intros [|c r2] Hl; try discriminate Hl.
  - simpl. split; auto.
  - simpl in *. rewrite andb_true_iff, feqb_true, IH by lia.
    rewrite Forall_cons. split.
    + intros [[-> ?] [-> ?]]. auto.
    + intros [[= ? ?] [? ?]]. auto.
Qed.

Lemma first_occurrences_sorted tmp : StronglySorted lt (first_occurrences tmp).
Proof. apply StronglySorted_filter, seq_sorted. Qed.

Lemma rowkey_nan_free r1 r2 :
  rowkey r1 = rowkey r2 ->
  Forall (fun x => fnan x = false) r2 -> Forall (fun x => fnan x = false) r1.
Proof.
  unfold rowkey. revert r2.
  induction r1 as [|a r1 IH]; intros [|c r2] HK Hn; try discriminate; constructor.
  - injection HK as H1 _. apply Forall_cons in Hn as [Hn _].
    by rewrite (key_eq_fnan _ _ H1).
  - injection HK as _ H2. apply Forall_cons in Hn as [_ Hn]. eauto.
Qed.

(** ** The model of [np.unique] finds the first occurrences *)

Section UniqueSpec.

Variable tmp : list (list float).

Variable k : nat.

Hypothesis Hlen : Forall (fun r => length r = k) tmp.

Abbreviation K i := (rowkey (Np.row tmp i)).

Notation "i ≺ j" := (before tmp i j) (at level 70).

Lemma before_irrefl i : ~ i ≺ i.
Proof.
  intros [H|[_ H]]; [|lia].
  assert (lexl (K i) (K i) = Eq) by (apply lexl_eq; reflexivity). congruence.
Qed.

Lemma before_trans i j l : i ≺ j -> j ≺ l -> i ≺ l.
Proof.
  intros [H1|[H1 L1]] [H2|[H2 L2]].
  - left. eapply lexl_lt_trans; eauto.
  - left. rewrite <- H2. exact H1.
  - left. rewrite H1. exact H2.
  - right. split; [congruence|lia].
Qed.

Lemma before_total i j : i <> j -> i ≺ j \/ j ≺ i.
Proof.
  intros Hne. unfold before.
  destruct (lexl (K i) (K j)) eqn:E.
  - apply lexl_eq in E. destruct (decide (i < j)); [left|right]; right; split; auto; lia.
  - auto.
  - right. left. rewrite lexl_antisym, E. reflexivity.
Qed.

Lemma before_asym i j : i ≺ j -> ~ j ≺ i.
Proof. intros H1 H2. exact (before_irrefl i (before_trans _ _ _ H1 H2)). Qed.

Lemma insert_index_perm i l : Np.insert_index tmp i l ≡ₚ i :: l.
Proof.
  induction l as [|j l IH]; simpl; [reflexivity|].
  destruct (Np.VOID_compare _ _); try reflexivity.
  rewrite IH. apply Permutation_swap.
Qed.

Lemma insert_index_sorted i l :
  StronglySorted (before tmp) l -> Forall (fun j => i < j) l ->
  StronglySorted (before tmp) (Np.insert_index tmp i l).
Proof.
  induction l as [|j l IH]; simpl; intros Hs Hlt.
  - repeat constructor.
  - apply StronglySorted_inv in Hs as [Hs Hj]. apply Forall_cons in Hlt as [Hij Hlt].
    assert (Hcase : Np.VOID_compare (Np.row tmp i) (Np.row tmp j) <> Gt ->
                    StronglySorted (before tmp) (i :: j :: l)).
    { intros Hc. rewrite VOID_compare_key in Hc.
      assert (i ≺ j) as Hb.
      { unfold before. destruct (lexl (K i) (K j)) eqn:E; try congruence; auto.
        apply lexl_eq in E. auto. }
      constructor; [constructor; auto|].
      constructor; [exact Hb|].
      eapply Forall_impl; [exact Hj|]. intros x Hx. eapply before_trans; eauto. }
    destruct (Np.VOID_compare (Np.row tmp i) (Np.row tmp j)) eqn:E;
      try (apply Hcase; congruence).
    constructor; [auto|].
    rewrite insert_index_perm. constructor; [|exact Hj].
    left. rewrite VOID_compare_key in E. rewrite lexl_antisym, E. reflexivity.
Qed.

Lemma argsort_from_spec s n :
  let l := foldr (Np.insert_index tmp) [] (seq s n) in
  StronglySorted (before tmp) l /\ l ≡ₚ seq s n.
Proof.
  revert s. induction n as [|n IH]; intros s; simpl.
  - split; [constructor|reflexivity].
  - destruct (IH (S s)) as [Hs Hp]. split.
    + apply insert_index_sorted; [exact Hs|].
      rewrite Hp. apply Forall_forall. intros j Hj. apply elem_of_seq in Hj. lia.
    + rewrite insert_index_perm, Hp. reflexivity.
Qed.

Lemma argsort_sorted : StronglySorted (before tmp) (Np.argsort tmp).
Proof. apply argsort_from_spec. Qed.

Lemma argsort_perm : Np.argsort tmp ≡ₚ seq 0 (length tmp).
Proof. apply argsort_from_spec. Qed.

Lemma row_length i : i < length tmp -> length (Np.row tmp i) = k.
Proof.
  intros Hi. unfold Np.row.
  destruct (lookup_lt_is_Some_2 tmp i Hi) as [r Hr].
  rewrite (list_lookup_total_correct _ _ _ Hr).
  eapply Forall_lookup_1 in Hlen; eauto.
Qed.

Lemma row_eq_rowkey i j :
  i < length tmp -> j < length tmp ->
  Np.row_eq (Np.row tmp j) (Np.row tmp i) = true <->
  K j = K i /\ Forall (fun x => fnan x = false) (Np.row tmp i).
Proof. intros Hi Hj. apply row_eq_true. rewrite !row_length; auto. Qed.

Lemma row_eq_sym i j :
  i < length tmp -> j < length tmp ->
  Np.row_eq (Np.row tmp i) (Np.row tmp j) = Np.row_eq (Np.row tmp j) (Np.row tmp i).
Proof.
  intros Hi Hj. apply eq_true_iff_eq. rewrite !row_eq_rowkey by auto.
  split; intros [HK Hn]; (split; [congruence|]);
    (eapply rowkey_nan_free; [|exact Hn]); congruence.
Qed.

Lemma keep_changes_sublist p l : Np.keep_changes tmp p l `sublist_of` l.
Proof.
  revert p. induction l as [|x l IH]; intros p; simpl; [constructor|].
  destruct (Np.row_ne _ _); [apply sublist_skip|apply sublist_cons]; apply IH.
Qed.

Lemma keep_changes_spec p l i :
  StronglySorted (before tmp) (p :: l) ->
  Forall (fun j => j < length tmp) (p :: l) ->
  i ∈ Np.keep_changes tmp p l <->
  i ∈ l /\ forall j, j ∈ p :: l -> j ≺ i ->
                    Np.row_eq (Np.row tmp j) (Np.row tmp i) = false.
Proof.
  revert i p. induction l as [|x l IH0]; intros i p Hs Hr; simpl.
  { split; [intros H; inversion H|intros [H _]; inversion H]. }
  pose proof Hs as Hs0.
  apply StronglySorted_inv in Hs as [Hs Hp].
  pose proof Hs as Hsx. apply StronglySorted_inv in Hsx as [_ Hx].
  apply Forall_cons in Hp as [Hpx Hp].
  apply Forall_cons in Hr as [Hrp Hr]. pose proof Hr as Hr'.
  apply Forall_cons in Hr' as [Hrx Hrl].
  pose proof (fun i => IH0 i x Hs Hr) as IH. clear IH0.
  pose proof (row_eq_sym x p Hrx Hrp) as Hsym.
  assert (Hkeep : forall i, i ∈ Np.keep_changes tmp x l ->
            i ∈ x :: l /\ forall j, j ∈ p :: x :: l -> j ≺ i ->
                    Np.row_eq (Np.row tmp j) (Np.row tmp i) = false).
  { intros i' Hi'. apply IH in Hi' as [Hil Hall]. split; [by right|].
    intros j Hj Hji. apply elem_of_cons in Hj as [->|Hj]; [|by apply Hall].
    destruct (Np.row_eq (Np.row tmp p) (Np.row tmp i')) eqn:E; [|reflexivity].
    assert (Hi'r : i' < length tmp) by (eapply Forall_forall in Hrl; eauto).
    apply row_eq_rowkey in E as [HK Hn]; auto.
    assert (x ≺ i') as Hxi by (eapply Forall_forall in Hx; eauto).
    assert (K x = K i') as HKx.
    { destruct Hpx as [Hlt|[Heq _]]; [|congruence].
      exfalso.
      assert (lexl (K p) (K i') = Lt) as Hc.
      { destruct Hxi as [Hlt'|[Heq' _]]; [eapply lexl_lt_trans; eauto|congruence]. }
      rewrite HK in Hc.
      assert (lexl (K i') (K i') = Eq) by (apply lexl_eq; reflexivity). congruence. }
    rewrite <- (Hall x); [|by left|exact Hxi].
    symmetry. apply row_eq_rowkey; auto. }
  split.
  - intros Hi.
    destruct (Np.row_ne (Np.row tmp x) (Np.row tmp p)) eqn:E; [|by apply Hkeep].
    apply elem_of_cons in Hi as [->|Hi]; [|by apply Hkeep].
    split; [by left|]. intros j Hj Hjx.
    apply elem_of_cons in Hj as [->|Hj].
    + rewrite row_ne_eq, Hsym in E. by apply negb_true_iff in E.
    + apply elem_of_cons in Hj as [->|Hj]; [by apply before_irrefl in Hjx|].
      exfalso. eapply before_asym; [exact Hjx|]. eapply Forall_forall in Hx; eauto.
  - intros [Hi Hall].
    assert (Htail : i ∈ l -> i ∈ Np.keep_changes tmp x l).
    { intros Hil. apply IH. split; [exact Hil|].
      intros j Hj. apply Hall. by right. }
    apply elem_of_cons in Hi as [->|Hi].
    + specialize (Hall p (list_elem_of_here _ _) Hpx).
      rewrite row_ne_eq, Hsym, Hall. by left.
    + destruct (Np.row_ne _ _); [right|]; auto.
Qed.

Lemma is_first_spec i :
  is_first tmp i = true <->
  forall j, j < i -> Np.row_eq (Np.row tmp j) (Np.row tmp i) = false.
Proof.
  unfold is_first. rewrite forallb_forall. split.
  - intros H j Hj. apply negb_true_iff, H, list_elem_of_In, elem_of_seq. lia.
  - intros H j Hj. apply list_elem_of_In, elem_of_seq in Hj.
    apply negb_true_iff, H. lia.
Qed.

Lemma unique_index_spec i :
  i ∈ Np.unique_index tmp <-> i < length tmp /\ is_first tmp i = true.
Proof.
  rewrite is_first_spec. unfold Np.unique_index.
  pose proof argsort_sorted as Hs. pose proof argsort_perm as Hp.
  assert (Hin : forall j, j ∈ Np.argsort tmp <-> j < length tmp).
  { intros j. rewrite Hp, elem_of_seq. lia. }
  destruct (Np.argsort tmp) as [|x l] eqn:E.
  { split; [intros H; inversion H|]. intros [Hi _]. apply Hin in Hi. inversion Hi. }
  assert (Hr : Forall (fun j => j < length tmp) (x :: l)).
  { apply Forall_forall. intros j Hj. by apply Hin. }
  pose proof Hs as Hs'. apply StronglySorted_inv in Hs' as [_ Hx].
  rewrite elem_of_cons, (keep_changes_spec x l i Hs Hr). split.
  - intros [->|[Hil Hall]].
    + split; [apply Hin; by left|]. intros j Hj.
      destruct (Np.row_eq (Np.row tmp j) (Np.row tmp x)) eqn:Eq; [|reflexivity].
      assert (x < length tmp) by (apply Hin; by left).
      apply row_eq_rowkey in Eq as [HK _]; [|lia..].
      assert (j ∈ x :: l) as Hjl by (apply Hin; lia).
      apply elem_of_cons in Hjl as [->|Hjl]; [lia|].
      eapply Forall_forall in Hx; [|exact Hjl].
      exfalso. apply (before_asym _ _ Hx). right. auto.
    + split; [apply Hin; by right|]. intros j Hj.
      destruct (Np.row_eq (Np.row tmp j) (Np.row tmp i)) eqn:Eq; [|reflexivity].
      assert (i < length tmp) by (apply Hin; by right).
      rewrite <- (Hall j), Eq; [reflexivity|apply Hin; lia|].
      apply row_eq_rowkey in Eq as [HK _]; [|lia..]. right. auto.
  - intros [Hi Hall]. apply Hin in Hi as Hi'.
    apply elem_of_cons in Hi' as [->|Hil]; [by left|right].
    split; [exact Hil|]. intros j Hj Hji.
    destruct (Np.row_eq (Np.row tmp j) (Np.row tmp i)) eqn:Eq; [|reflexivity].
    apply row_eq_rowkey in Eq as [HK Hn]; [|auto|by apply Hin].
    destruct Hji as [Hlt|[_ Hlt]].
    + rewrite HK in Hlt.
      assert (lexl (K i) (K i) = Eq) by (apply lexl_eq; reflexivity). congruence.
    + rewrite <- (Hall j Hlt). symmetry. apply row_eq_rowkey; auto. by apply Hin.
Qed.

Lemma unique_index_NoDup : NoDup (Np.unique_index tmp).
Proof.
  unfold Np.unique_index.
  pose proof argsort_perm as Hp.
  assert (NoDup (Np.argsort tmp)) as Hnd by (rewrite Hp; apply NoDup_seq).
  destruct (Np.argsort tmp) as [|x l]; [constructor|].
  apply NoDup_cons in Hnd as [Hx Hl]. apply NoDup_cons. split.
  - intros H. apply Hx. eapply elem_of_sublist; [exact H|apply keep_changes_sublist].
  - eapply sublist_NoDup; [exact Hl|apply keep_changes_sublist].
Qed.

(** Sorting the positions [np.unique] returns gives the first
    occurrences of the distinct rows, in increasing order. *)
Lemma sorted_unique_index : sorted (Np.unique_index tmp) = first_occurrences tmp.
Proof.
  unfold sorted, first_occurrences.
  apply (Sorted_unique Nat.le).
  - apply Sorted_merge_sort. apply _.
  - apply StronglySorted_Sorted, StronglySorted_lt_le, first_occurrences_sorted.
  - rewrite merge_sort_Permutation. apply NoDup_Permutation.
    + apply unique_index_NoDup.
    + apply NoDup_filter, NoDup_seq.
    + intros i. rewrite unique_index_spec, list_elem_of_filter, elem_of_seq. intuition lia.
Qed.

End UniqueSpec.

(** ** [np.where] *)

Lemma where_from_spec s mask j :
  j ∈ Np.where_from s mask <-> exists i, j = s + i /\ mask !! i = Some true.
Proof.
  revert s. induction mask as [|c mask IH]; intros s; simpl.
  - split; [intros H; inversion H|intros (i & _ & H); discriminate].
  - assert (j ∈ Np.where_from (S s) mask <->
            exists i, j = s + S i /\ mask !! i = Some true) as IH'.
    { rewrite IH. split; intros (i & -> & H); exists i; split; auto; lia. }
    destruct c.
    + rewrite elem_of_cons, IH'. split.
      * intros [->|(i & -> & H)]; [exists 0|exists (S i)]; split; auto; lia.
      * intros ([|i] & -> & H); [left; lia|right; eauto].
    + rewrite IH'. split.
      * intros (i & -> & H). exists (S i). auto.
      * intros ([|i] & -> & H); [discriminate|eauto].
Qed.

Lemma where_spec mask i : i ∈ Np.where_ mask <-> mask !! i = Some true.
Proof.
  unfold Np.where_. rewrite where_from_spec. split.
  - intros (j & -> & H). exact H.
  - intros H. exists i. auto.
Qed.

Lemma where_fmap_spec {A} (f : A -> bool) (l : list A) i :
  i ∈ Np.where_ (map f l) <-> exists x, l !! i = Some x /\ f x = true.
Proof.
  rewrite where_spec. change (map f l) with (f <$> l). rewrite list_lookup_fmap.
  destruct (l !! i) as [x|]; simpl; split.
  - intros [= H]. eauto.
  - intros (y & [= ->] & H). by rewrite H.
  - discriminate.
  - intros (y & [=] & _).
Qed.

Lemma where_from_sorted s mask : StronglySorted lt (Np.where_from s mask).
Proof.
  revert s. induction mask as [|c mask IH]; intros s; simpl; [constructor|].
  destruct c; [|apply IH]. constructor; [apply IH|].
  apply Forall_forall. intros j Hj. apply where_from_spec in Hj as (i & -> & _). lia.
Qed.

Lemma where_sorted mask : StronglySorted lt (Np.where_ mask).
Proof. apply where_from_sorted. Qed.

Lemma where_NoDup mask : NoDup (Np.where_ mask).
Proof. apply StronglySorted_lt_NoDup, where_sorted. Qed.

Lemma where_from_length_complement s t mask :
  length (Np.where_from s mask) + length (Np.where_from t (map negb mask)) = length mask.
Proof.
  revert s t. induction mask as [|c mask IH]; intros s t; simpl; [reflexivity|].
  destruct c; simpl; rewrite <- (IH (S s) (S t)); lia.
Qed.

(** ** Sign normalization *)

Lemma negate_directions_lookup idx rs i :
  NoDup idx ->
  negate_directions idx rs !! i =
  (if decide (i ∈ idx) then flip_row else id) <$> rs !! i.
Proof.
  unfold negate_directions.
  set (F := fun i => map PrimFloat.opp (take 3 (rs !!! i))).
  assert (forall acc : list (list float), NoDup idx ->
          (forall j, j ∈ idx -> acc !! j = rs !! j) ->
    foldl (fun rs' iv => alter (fun r => iv.2 ++ drop 3 r) iv.1 rs') acc (zip idx (map F idx)) !! i
    = if decide (i ∈ idx) then flip_row <$> rs !! i else acc !! i) as Hgen.
  { clear. induction idx as [|x idx IH]; intros acc Hnd Hacc; cbn [map zip zip_with foldl fst snd].
    - case_decide as H; [inversion H|reflexivity].
    - apply NoDup_cons in Hnd as [Hx Hnd].
      rewrite IH; [|exact Hnd|].
      + destruct (decide (i ∈ idx)) as [Hi|Hi].
        * rewrite decide_True; [reflexivity|by right].
        * destruct (decide (i = x)) as [->|Hne].
          -- rewrite decide_True by (by left).
             rewrite list_lookup_alter_eq, Hacc by (by left).
             unfold F. destruct (rs !! x) as [r|] eqn:E; simpl; [|reflexivity].
             rewrite (list_lookup_total_correct _ _ _ E). reflexivity.
          -- rewrite decide_False.
             ++ apply list_lookup_alter_ne. congruence.
             ++ intros [?|?]%elem_of_cons; contradiction.
      + intros j Hj. rewrite list_lookup_alter_ne; [apply Hacc; by right|].
        intros ->. contradiction. }
  intros Hnd. rewrite Hgen; auto.
  destruct (decide (i ∈ idx)); [reflexivity|]. by destruct (rs !! i).
Qed.

Lemma negate_directions_length idx rs : length (negate_directions idx rs) = length rs.
Proof.
  unfold negate_directions. generalize (map (fun i => map PrimFloat.opp (take 3 (rs !!! i))) idx).
  intros vs. revert vs rs.
  induction idx as [|x idx IH]; intros [|v vs] acc; cbn [zip zip_with foldl]; try reflexivity.
  rewrite IH, length_alter. reflexivity.
Qed.

Lemma drop_flip_row r : drop 3 (flip_row r) = drop 3 r.
Proof.
  unfold flip_row. destruct r as [|a [|c [|d r]]]; reflexivity.
Qed.

Lemma length_flip_row r : length (flip_row r) = length r.
Proof.
  unfold flip_row. rewrite length_app, length_map, length_take, length_drop. lia.
Qed.

Lemma negate_directions_drop idx rs :
  NoDup idx -> map (drop 3) (negate_directions idx rs) = map (drop 3) rs.
Proof.
  intros Hnd. apply list_eq. intros i.
  change (map (drop 3)) with (fmap (M:=list) (drop (A:=float) 3)).
  rewrite !list_lookup_fmap, negate_directions_lookup by exact Hnd.
  destruct (rs !! i) as [r|]; simpl; [|reflexivity].
  destruct (decide _); simpl; [rewrite drop_flip_row|]; reflexivity.
Qed.

(** ** The shell loop *)

Lemma shells_loop_spec ver thr rs tmp (bs : list float) (order : list nat) :
  shells_loop ver thr rs tmp (map (fun index => tmp !!! index) order)
              (map (fun index => bs !!! index) order)
  = map (fun r => make_shell ver rs tmp (tmp !!! r) (bs !!! r))
        (filter (fun r => ((bs !!! r) <=? thr)%float = false) order).
Proof.
  unfold shells_loop.
  rewrite (foldl_append_if
             (fun i => ((map (fun index => bs !!! index) order !!! i) <=? thr)%float)
             (fun i => make_shell ver rs tmp (map (fun index => tmp !!! index) order !!! i)
                                  (map (fun index => bs !!! index) order !!! i))).
  rewrite app_nil_l, length_map.
  rewrite <- omap_if_filter.
  rewrite <- (omap_seq_lookup
               (fun r => if ((bs !!! r) <=? thr)%float then None
                         else Some (make_shell ver rs tmp (tmp !!! r) (bs !!! r))) [] order).
  apply omap_ext_in. intros i Hi. apply elem_of_seq in Hi. simpl in Hi.
  change (map ?f order) with (f <$> order).
  rewrite (list_lookup_total_fmap (fun index => bs !!! index) order i) by lia.
  rewrite (list_lookup_total_fmap (fun index => tmp !!! index) order i) by lia.
  reflexivity.
Qed.

(** ** b-values as a function of the descriptor columns *)

Lemma lookup_total_drop3 (r : list float) i : drop 3 r !!! i = r !!! (3 + i).
Proof. rewrite !list_lookup_total_alt, lookup_drop. reflexivity. Qed.

Lemma version_and_b_descriptor m ver bs :
  version_and_b m = Ok (ver, bs) ->
  bs = map (fun r => b_of_descriptor ver (drop 3 r)) (rows m).
Proof.
  unfold version_and_b, version_and_b_with, ERROR.
  destruct (Nat.eqb (shape1 m) 4); [intros [= <- <-]|
  destruct (Nat.eqb (shape1 m) 7); [intros [= <- <-]|
  destruct (Nat.ltb 7 (shape1 m)); [intros [= <- <-]|discriminate]]];
    apply map_ext; intros r; unfold b_of_descriptor, stejskal_tanner_b; simpl;
    rewrite ?lookup_total_drop3, ?drop_drop; reflexivity.
Qed.

Lemma rowkey_lookup d d' i : rowkey d = rowkey d' -> key (d !!! i) = key (d' !!! i).
Proof.
  unfold rowkey. revert d' i. induction d as [|a d IH]; intros [|c d'] i H; try discriminate.
  - reflexivity.
  - injection H as H1 H2. destruct i; simpl; auto.
Qed.

Lemma rowkey_drop n d d' : rowkey d = rowkey d' -> rowkey (drop n d) = rowkey (drop n d').
Proof.
  unfold rowkey. change (map key) with (fmap (M:=list) key).
  rewrite !fmap_drop. congruence.
Qed.

Lemma rowkey_length d d' : rowkey d = rowkey d' -> length d = length d'.
Proof. unfold rowkey. intros H. apply (f_equal length) in H. by rewrite !length_map in H. Qed.

Lemma rowkey_cumsum_from acc acc' g g' :
  key acc = key acc' -> rowkey g = rowkey g' ->
  rowkey (Np.cumsum_from acc g) = rowkey (Np.cumsum_from acc' g').
Proof.
  unfold rowkey. revert acc acc' g'. induction g as [|x g IH]; intros acc acc' [|x' g'] Ha H;
    try discriminate; [reflexivity|].
  injection H as H1 H2. simpl. f_equal.
  - by apply key_add.
  - apply IH; [by apply key_add|exact H2].
Qed.

Lemma rowkey_cumsum g g' : rowkey g = rowkey g' -> rowkey (Np.cumsum g) = rowkey (Np.cumsum g').
Proof.
  destruct g as [|x g], g' as [|x' g']; try discriminate; [reflexivity|].
  unfold rowkey at 1 2. intros [= H1 H2]. unfold Np.cumsum, rowkey. simpl. f_equal; [exact H1|].
  by apply rowkey_cumsum_from.
Qed.

Lemma rowkey_map f f' l l' :
  (forall x x', key x = key x' -> key (f x) = key (f' x')) ->
  rowkey l = rowkey l' -> rowkey (map f l) = rowkey (map f' l').
Proof.
  intros Hf. unfold rowkey. revert l'. induction l as [|x l IH]; intros [|x' l'] H;
    try discriminate; [reflexivity|].
  injection H as H1 H2. simpl. f_equal; auto.
Qed.

Lemma key_dot_from a a' u u' :
  key a = key a' -> rowkey u = rowkey u' ->
  key (foldl (fun acc p => (acc + p.1 * p.2)%float) a (zip u u))
  = key (foldl (fun acc p => (acc + p.1 * p.2)%float) a' (zip u' u')).
Proof.
  unfold rowkey. revert u' a a'. induction u as [|x u IH]; intros [|x' u'] a a' Ha H;
    try discriminate; [exact Ha|].
  injection H as H1 H2. simpl. apply IH; [|exact H2].
  apply key_add; [exact Ha|]. by apply key_mul.
Qed.

Lemma key_dot u u' : rowkey u = rowkey u' -> key (Np.dot u u) = key (Np.dot u' u').
Proof. intros H. by apply key_dot_from. Qed.

Lemma key_compute1D_b g g' te te' :
  rowkey g = rowkey g' -> key te = key te' ->
  key (compute1D_b g (Some te) None) = key (compute1D_b g' (Some te') None).
Proof.
  intros Hg Ht. unfold compute1D_b, compute1D_b_with. simpl.
  rewrite (rowkey_length _ _ Hg).
  assert (key (te / float_of_nat (length g'))%float = key (te' / float_of_nat (length g'))%float)
    as Hdt by (by apply key_div).
  apply key_div. apply key_mul; [|exact Hdt].
  apply key_dot. apply rowkey_map; [|by apply rowkey_cumsum].
  intros x x' Hx. apply key_mul; [|reflexivity]. by apply key_mul.
Qed.

Lemma b_of_descriptor_key ver d d' :
  rowkey d = rowkey d' -> key (b_of_descriptor ver d) = key (b_of_descriptor ver d').
Proof.
  intros H. unfold b_of_descriptor.
  destruct (Nat.eqb ver 0); [by apply rowkey_lookup|].
  destruct (Nat.eqb ver 1).
  - pose proof (rowkey_lookup _ _ 0 H). pose proof (rowkey_lookup _ _ 1 H).
    pose proof (rowkey_lookup _ _ 2 H).
    apply key_mul; [|reflexivity]. apply key_mul.
    + unfold Np.square. apply key_mul; apply key_mul; auto; by apply key_mul.
    + apply key_sub; [auto|]. by apply key_div.
  - apply key_compute1D_b; [by apply rowkey_drop|by apply rowkey_lookup].
Qed.

(** ** Threshold comparisons *)

Lemma key_leb x y t : key x = key y -> (x <=? t)%float = (y <=? t)%float.
Proof. intros H. rewrite !fleb_key, H. reflexivity. Qed.

Lemma key_gtb x y t : key x = key y -> (t <? x)%float = (t <? y)%float.
Proof. intros H. rewrite !fltb_key, H, (key_eq_fnan _ _ H). reflexivity. Qed.

Lemma leb_gtb_disjoint x t : (x <=? t)%float = true -> (t <? x)%float = false.
Proof.
  rewrite fleb_key, fltb_key, (lex3_antisym (key t)).
  destruct (lex3 (key x) (key t)); simpl; congruence.
Qed.

Lemma leb_gtb_total x t :
  fnan x = false -> fnan t = false -> (x <=? t)%float = negb (t <? x)%float.
Proof.
  intros Hx Ht. rewrite fleb_key, fltb_key, (lex3_antisym (key t)), Hx, Ht.
  destruct (lex3 (key x) (key t)); reflexivity.
Qed.

Lemma leb_not_nan x t : (x <=? t)%float = true -> fnan t = false.
Proof.
  rewrite fleb_key. destruct (lex3 _ _); try discriminate; by intros ?%negb_true_iff.
Qed.

(** ** What [load_from_table] stores *)

Lemma load_from_table_with_inv np_dot data thr s :
  load_from_table_with np_dot data thr = Ok s ->
  let m := ensure_2d data in
  version_and_b_with np_dot m = Ok (version s, b s) /\
  b0_thr s = thr /\
  b0_idx s = Np.where_ (map (fun x => (x <=? thr)%float) (b s)) /\
  b0_count s = length (b0_idx s) /\
  dwi_idx s = Np.where_ (map (fun x => (thr <? x)%float) (b s)) /\
  dwi_count s = length (dwi_idx s) /\
  raw s = Matrix (shape1 m) (negate_directions (negative_y m) (rows m)) /\
  shells s =
    (let tmp := map (drop 3) (rows (raw s)) in
     let order := sorted (Np.unique_index tmp) in
     shells_loop (version s) thr (rows (raw s)) tmp
       (map (fun index => tmp !!! index) order)
       (map (fun index => b s !!! index) order)).
Proof.
  intros H m. unfold load_from_table_with in H. fold m in H.
  destruct (version_and_b_with np_dot m) as [[ver bs]|e]; [|discriminate].
  injection H as <-. simpl. repeat split; reflexivity.
Qed.

Lemma load_from_table_inv data thr s :
  load_from_table data thr = Ok s ->
  let m := ensure_2d data in
  version_and_b m = Ok (version s, b s) /\
  b0_thr s = thr /\
  b0_idx s = Np.where_ (map (fun x => (x <=? thr)%float) (b s)) /\
  b0_count s = length (b0_idx s) /\
  dwi_idx s = Np.where_ (map (fun x => (thr <? x)%float) (b s)) /\
  dwi_count s = length (dwi_idx s) /\
  raw s = Matrix (shape1 m) (negate_directions (negative_y m) (rows m)) /\
  shells s =
    (let tmp := map (drop 3) (rows (raw s)) in
     let order := sorted (Np.unique_index tmp) in
     shells_loop (version s) thr (rows (raw s)) tmp
       (map (fun index => tmp !!! index) order)
       (map (fun index => b s !!! index) order)).
Proof. exact (load_from_table_with_inv Np.dot data thr s). Qed.

Lemma wf_ensure_2d data : wf_ndarray data -> wf_matrix (ensure_2d data).
Proof.
  destruct data as [v|m]; simpl; [|auto]. intros _. unfold wf_matrix. simpl.
  constructor; [reflexivity|constructor].
Qed.

Lemma load_from_table_rows data thr s :
  load_from_table data thr = Ok s ->
  map (drop 3) (rows (raw s)) = map (drop 3) (rows (ensure_2d data)) /\
  length (rows (raw s)) = length (rows (ensure_2d data)) /\
  length (b s) = length (rows (ensure_2d data)) /\
  b s = map (fun r => b_of_descriptor (version s) (drop 3 r)) (rows (ensure_2d data)).
Proof.
  intros H. apply load_from_table_inv in H as (Hb & _ & _ & _ & _ & _ & Hraw & _).
  rewrite Hraw. simpl. split; [|split].
  - apply negate_directions_drop, where_NoDup.
  - apply negate_directions_length.
  - apply version_and_b_descriptor in Hb. split; [|exact Hb].
    rewrite Hb at 1. apply length_map.
Qed.

Lemma shells_spec data thr s :
  wf_ndarray data -> load_from_table data thr = Ok s ->
  let D := map (drop 3) (rows (raw s)) in
  shells s = map (fun r => make_shell (version s) (rows (raw s)) D (D !!! r) (b s !!! r))
                 (shell_rows thr (b s) D).
Proof.
  intros Hwf H D.
  pose proof (load_from_table_rows _ _ _ H) as (HD & _).
  apply load_from_table_inv in H as (_ & _ & _ & _ & _ & _ & _ & Hsh).
  rewrite Hsh. cbv zeta. fold D.
  rewrite shells_loop_spec. unfold shell_rows.
  rewrite (sorted_unique_index D (shape1 (ensure_2d data) - 3)); [reflexivity|].
  unfold D. rewrite HD. apply Forall_forall. intros d Hd.
  apply list_elem_of_In, in_map_iff in Hd as (r & <- & Hr).
  apply wf_ensure_2d in Hwf. unfold wf_matrix in Hwf.
  eapply Forall_forall in Hwf; [|apply list_elem_of_In; exact Hr].
  rewrite length_drop, Hwf. reflexivity.
Qed.

Lemma nan_free_Forall l : nan_free l = true <-> Forall (fun x => fnan x = false) l.
Proof.
  unfold nan_free. rewrite forallb_forall, Forall_forall. split; intros H x Hx.
  - apply list_elem_of_In, H in Hx. rewrite is_nan_fnan in Hx. by apply negb_true_iff.
  - apply list_elem_of_In, H in Hx. rewrite is_nan_fnan. by apply negb_true_iff.
Qed.

(** ** Classification *)

(** C6, amended: for b-values none of which is NaN and a threshold that is
    not NaN.  The baseline indices are the rows with b <= b0_thr and the
    weighted indices the rows with b > b0_thr; the two lists have no
    duplicates and no common row; together they cover [0, N), so that
    |baseline| + |weighted| = N, which is also [nS]. *)
Theorem classification_partition data thr s :
  load_from_table data thr = Ok s ->
  PrimFloat.is_nan thr = false ->
  nan_free (b s) = true ->
  let N := shape0 (raw s) in
  length (b s) = N /\
  (forall i, i ∈ b0_idx s <-> exists x, b s !! i = Some x /\ (x <=? thr)%float = true) /\
  (forall i, i ∈ dwi_idx s <-> exists x, b s !! i = Some x /\ (thr <? x)%float = true) /\
  NoDup (b0_idx s) /\ NoDup (dwi_idx s) /\
  (forall i, ~ (i ∈ b0_idx s /\ i ∈ dwi_idx s)) /\
  (forall i, i < N <-> i ∈ b0_idx s \/ i ∈ dwi_idx s) /\
  length (b0_idx s) + length (dwi_idx s) = N /\
  nS s = N.
Proof.
  intros H Hthr Hb N.
  pose proof (load_from_table_rows _ _ _ H) as (_ & Hlen & Hlb & _).
  apply load_from_table_inv in H as (_ & _ & Hb0 & Hc0 & Hdwi & Hc1 & _ & _).
  assert (HN : length (b s) = N) by (unfold N, shape0; congruence).
  assert (Hin0 : forall i, i ∈ b0_idx s <->
                 exists x, b s !! i = Some x /\ (x <=? thr)%float = true).
  { intros i. rewrite Hb0. apply where_fmap_spec. }
  assert (Hin1 : forall i, i ∈ dwi_idx s <->
                 exists x, b s !! i = Some x /\ (thr <? x)%float = true).
  { intros i. rewrite Hdwi. apply where_fmap_spec. }
  rewrite is_nan_fnan in Hthr. apply nan_free_Forall in Hb.
  assert (Hcount : length (b0_idx s) + length (dwi_idx s) = N).
  { rewrite Hb0, Hdwi, <- HN. unfold Np.where_.
    replace (map (fun x => (thr <? x)%float) (b s))
      with (map negb (map (fun x => (x <=? thr)%float) (b s))).
    - rewrite where_from_length_complement. apply length_map.
    - rewrite map_map. apply map_ext_Forall. eapply Forall_impl; [exact Hb|].
      intros x Hx. simpl. rewrite (leb_gtb_total x thr Hx Hthr). by rewrite negb_involutive. }
  refine (conj HN (conj Hin0 (conj Hin1 (conj _ (conj _ (conj _ (conj _ (conj Hcount _)))))))).
  - rewrite Hb0. apply where_NoDup.
  - rewrite Hdwi. apply where_NoDup.
  - intros i [(x & Hx & Hle)%Hin0 (y & Hy & Hgt)%Hin1].
    rewrite Hx in Hy. injection Hy as <-. apply leb_gtb_disjoint in Hle. congruence.
  - intros i. split.
    + intros Hi. rewrite <- HN in Hi. apply lookup_lt_is_Some_2 in Hi as [x Hx].
      rewrite Hin0, Hin1.
      assert (fnan x = false) as Hnx by (eapply Forall_lookup_1 in Hb; eauto).
      pose proof (leb_gtb_total x thr Hnx Hthr) as E.
      destruct (thr <? x)%float eqn:Egt; simpl in E; [right|left]; eauto.
    + rewrite Hin0, Hin1. intros [(x & Hx & _)|(x & Hx & _)];
        apply lookup_lt_Some in Hx; lia.
  - unfold nS. rewrite Hc0, Hc1. exact Hcount.
Qed.

(** The scenario of section 8: baseline {1, 2}, weighted {0}, nS = 3. *)
Lemma classification_partition_witness :
  exists s, load_from_table ex_bvalue 0 = Ok s /\ nS s = 3 /\ b0_idx s = [1; 2] /\ dwi_idx s = [0].
Proof.
  exists (scheme_of ex_bvalue 0). split; [reflexivity|].
  pose proof (classification_partition ex_bvalue 0 (scheme_of ex_bvalue 0)
                eq_refl eq_refl eq_refl) as (_ & _ & _ & _ & _ & _ & _ & _ & HnS).
  split; [exact HnS|]. split; reflexivity.
Defined.

(** C6 as stated fails on [ex_nan_b]: its single row has a NaN b-value,
    is neither baseline nor weighted, and nS is 0 while N is 1. *)
Lemma classification_nan_counterexample :
  exists s, load_from_table ex_nan_b 0 = Ok s /\
            b s = [nan] /\ b0_idx s = [] /\ dwi_idx s = [] /\
            shape0 (raw s) = 1 /\ nS s = 0.
Proof. exists (scheme_of ex_nan_b 0). repeat split. Qed.

Lemma load_from_table_version data thr s :
  load_from_table data thr = Ok s ->
  let M := column_count data in
  (version s = 0 /\ M = 4) \/ (version s = 1 /\ M = 7) \/ (version s = 2 /\ 7 < M).
Proof.
  intros Hs M. apply load_from_table_inv in Hs as (Hv & _).
  unfold version_and_b, version_and_b_with, ERROR in Hv.
  replace (shape1 (ensure_2d data)) with M in Hv by (by destruct data).
  destruct (Nat.eqb_spec M 4); [left; split; congruence|].
  destruct (Nat.eqb_spec M 7); [right; left; split; congruence|].
  destruct (Nat.ltb_spec 7 M); [right; right; split; [congruence|lia]|discriminate].
Qed.

Lemma load_from_table_columns data thr s :
  load_from_table data thr = Ok s -> 4 <= column_count data.
Proof.
  intros Hs. apply load_from_table_inv in Hs as (Hv & _).
  unfold version_and_b, version_and_b_with, ERROR in Hv.
  replace (shape1 (ensure_2d data)) with (column_count data) in Hv by (by destruct data).
  destruct (Nat.eqb_spec (column_count data) 4); [lia|].
  destruct (Nat.eqb_spec (column_count data) 7); [lia|].
  destruct (Nat.ltb_spec 7 (column_count data)); [lia|discriminate].
Qed.

(** ** Format detection *)

(** C7.  The format follows from the column count M alone: M = 4 gives
    BVALUE, M = 7 gives STEJSKAL_TANNER, M > 7 gives WAVEFORM, and any
    other M fails with [UnrecognizedFormat], so that no scheme is produced;
    the stored table keeps the M columns; a 1-D array of length M is loaded
    as the table whose single row it is (N = 1). *)
Theorem format_from_column_count data thr :
  let M := column_count data in
  (M = 4 -> exists s, load_from_table data thr = Ok s /\ format_of s = Some BVALUE) /\
  (M = 7 -> exists s, load_from_table data thr = Ok s /\ format_of s = Some STEJSKAL_TANNER) /\
  (7 < M -> exists s, load_from_table data thr = Ok s /\ format_of s = Some WAVEFORM) /\
  (M <> 4 -> M <> 7 -> ~ 7 < M -> load_from_table data thr = Err UnrecognizedFormat) /\
  (forall s, load_from_table data thr = Ok s -> shape1 (raw s) = M) /\
  (forall v, data = Array1D v ->
     ensure_2d data = Matrix (length v) [v] /\
     load_from_table data thr = load_from_table (Array2D (Matrix (length v) [v])) thr /\
     forall s, load_from_table data thr = Ok s -> shape0 (raw s) = 1).
Proof.
  intros M.
  assert (HM : shape1 (ensure_2d data) = M) by (by destruct data).
  assert (Hcases : forall ver, (exists bs, version_and_b (ensure_2d data) = Ok (ver, bs)) ->
            exists s, load_from_table data thr = Ok s /\ version s = ver).
  { intros ver [bs Hv]. unfold load_from_table, load_from_table_with.
    change (version_and_b_with Np.dot) with version_and_b. rewrite Hv.
    eexists. split; reflexivity. }
  unfold format_of.
  repeat apply conj.
  - intros H4. destruct (Hcases 0) as (s & Hs & Hver).
    { unfold version_and_b, version_and_b_with. rewrite HM, H4. simpl. eauto. }
    exists s. by rewrite Hver.
  - intros H7. destruct (Hcases 1) as (s & Hs & Hver).
    { unfold version_and_b, version_and_b_with. rewrite HM, H7. simpl. eauto. }
    exists s. by rewrite Hver.
  - intros Hgt. destruct (Hcases 2) as (s & Hs & Hver).
    { unfold version_and_b, version_and_b_with. rewrite HM.
      destruct (Nat.eqb_spec M 4); [lia|]. destruct (Nat.eqb_spec M 7); [lia|].
      destruct (Nat.ltb_spec 7 M); [eauto|lia]. }
    exists s. by rewrite Hver.
  - intros N4 N7 Ngt. unfold load_from_table, load_from_table_with, version_and_b_with.
    rewrite HM.
    destruct (Nat.eqb_spec M 4); [lia|]. destruct (Nat.eqb_spec M 7); [lia|].
    destruct (Nat.ltb_spec 7 M); [lia|]. reflexivity.
  - intros s Hs. apply load_from_table_inv in Hs as (_ & _ & _ & _ & _ & _ & Hraw & _).
    rewrite Hraw. exact HM.
  - intros v ->. split; [reflexivity|]. split; [reflexivity|].
    intros s Hs. apply load_from_table_rows in Hs as (_ & Hlen & _).
    unfold shape0. rewrite Hlen. reflexivity.
Qed.

(** C10.  On a scheme built from a 4-column table (BVALUE, version 0),
    [to_version_1] falls through both branches: it raises nothing, returns
    [None], and the scheme is left as it was. *)
Theorem to_version_1_bvalue data thr s :
  load_from_table data thr = Ok s ->
  column_count data = 4 ->
  format_of s = Some BVALUE /\ to_version_1 s = Ok (ReturnsNone, s).
Proof.
  intros Hs H4.
  assert (version s = 0) as Hv.
  { destruct (load_from_table_version _ _ _ Hs) as [[? ?]|[[? ?]|[? ?]]]; [assumption|lia..]. }
  unfold format_of, to_version_1. rewrite Hv. split; reflexivity.
Qed.

(** C10 on the scenario of section 8. *)
Lemma to_version_1_bvalue_witness :
  exists s, load_from_table ex_bvalue 0 = Ok s /\ to_version_1 s = Ok (ReturnsNone, s).
Proof.
  exists (scheme_of ex_bvalue 0). split; [reflexivity|].
  exact (proj2 (to_version_1_bvalue ex_bvalue 0 (scheme_of ex_bvalue 0) eq_refl eq_refl)).
Defined.

Lemma b_from_stored_rows data thr s :
  load_from_table data thr = Ok s ->
  b s = map (fun r => b_of_descriptor (version s) (drop 3 r)) (rows (raw s)).
Proof.
  intros H. apply load_from_table_rows in H as (HD & _ & _ & Hb).
  rewrite Hb at 1. rewrite <- (map_map (drop 3) (b_of_descriptor (version s))), <- HD.
  by rewrite map_map.
Qed.

(** ** b-values *)

(** C2.  For a table with exactly 7 columns, the b-value of every row is
    (267.513e6 * G * delta)^2 * (Delta - delta/3) * 1e-6, where G, Delta
    and delta are columns 3, 4 and 5 of the row and every operation is the
    float64 one, in the order line 81 writes them.  A row with G = 1e-3,
    Delta = 0.025 and delta = 0.010 gets a b-value within the relative
    tolerance 1e-6 of the exact value of
    (267.513e6 * 1e-3 * 0.010)^2 * (0.025 - 0.010/3) * 1e-6. *)
Theorem stejskal_tanner_b_values data thr s :
  column_count data = 7 ->
  load_from_table data thr = Ok s ->
  length (b s) = shape0 (raw s) /\
  (forall i r, rows (raw s) !! i = Some r ->
     let G := r !!! 3 in
     let Delta := r !!! 4 in
     let delta := r !!! 5 in
     b s !! i =
     Some (Np.square (267.513e6 * G * delta) * (Delta - delta / 3) * 1e-6)%float) /\
  (forall i r, rows (raw s) !! i = Some r ->
     r !!! 3 = 1e-3%float -> r !!! 4 = 0.025%float -> r !!! 5 = 0.010%float ->
     exists x, b s !! i = Some x /\ within_rel (1 # 1000000) x st_expected = true).
Proof.
  intros H7 Hs.
  pose proof (load_from_table_rows _ _ _ Hs) as (_ & Hlen & Hlb & _).
  pose proof (b_from_stored_rows _ _ _ Hs) as Hb.
  pose proof (load_from_table_inv _ _ _ Hs) as (Hv & _).
  assert (version s = 1) as Hver.
  { unfold version_and_b, version_and_b_with in Hv.
    replace (shape1 (ensure_2d data)) with 7 in Hv by (by destruct data).
    simpl in Hv. congruence. }
  assert (Hrow : forall i r, rows (raw s) !! i = Some r ->
     b s !! i = Some (Np.square (267.513e6 * (r !!! 3%nat) * (r !!! 5%nat))
                      * ((r !!! 4%nat) - (r !!! 5%nat) / 3) * 1e-6)%float).
  { intros i r Hr. rewrite Hb. change (map ?f ?l) with (f <$> l).
    rewrite list_lookup_fmap, Hr. simpl. unfold b_of_descriptor. rewrite Hver. simpl.
    rewrite !lookup_total_drop3. reflexivity. }
  split; [unfold shape0; congruence|]. split; [exact Hrow|].
  intros i r Hr H3 H4 H5. eexists. split; [apply Hrow; exact Hr|].
  rewrite H3, H4, H5. vm_compute. reflexivity.
Qed.

(** C2 on [ex_stejskal_tanner]: rows with G = 2e-3 and G = 1e-3. *)
Lemma stejskal_tanner_b_values_witness :
  exists s, load_from_table ex_stejskal_tanner 0 = Ok s /\
    b s !! 0 = Some 0.62021444479800003%float /\
    b s !! 1 = Some 0.15505361119950001%float.
Proof.
  exists (scheme_of ex_stejskal_tanner 0). split; [reflexivity|].
  destruct (stejskal_tanner_b_values ex_stejskal_tanner 0 (scheme_of ex_stejskal_tanner 0)
              eq_refl eq_refl) as (_ & Hrow & _).
  split.
  - exact (Hrow 0 _ eq_refl).
  - exact (Hrow 1 _ eq_refl).
Defined.







Lemma opp_negative y :
  (y <? 0)%float = true -> (- y <? 0)%float = false /\ fnan (- y) = false.
Proof.
  unfold fnan. rewrite !FloatAxioms.ltb_spec, FloatAxioms.opp_spec.
  change (Prim2SF 0) with (S754_zero false).
  destruct (Prim2SF y) as [[]|[]| |[] m e]; simpl; try discriminate; auto.
Qed.

Lemma not_negative_nonneg y :
  (y <? 0)%float = false -> fnan y = false -> (0 <=? y)%float = true.
Proof.
  intros Hlt Hn. rewrite (leb_gtb_total 0 y); [by rewrite Hlt|reflexivity|exact Hn].
Qed.

Lemma flip_row_y r : 2 <= length r -> flip_row r !!! 1 = (- (r !!! 1%nat))%float.
Proof. destruct r as [|x [|y r]]; simpl; try lia. destruct r; reflexivity. Qed.

Lemma stored_row_lookup data thr s i r :
  load_from_table data thr = Ok s ->
  rows (ensure_2d data) !! i = Some r ->
  rows (raw s) !! i = Some (if (r !!! 1%nat <? 0)%float then flip_row r else r).
Proof.
  intros Hs Hr.
  pose proof (load_from_table_inv _ _ _ Hs) as (_ & _ & _ & _ & _ & _ & Hraw & _).
  rewrite Hraw. simpl. rewrite negate_directions_lookup by apply where_NoDup.
  rewrite Hr. simpl. f_equal.
  destruct (decide (i ∈ negative_y (ensure_2d data))) as [Hi|Hi];
    unfold negative_y in Hi; rewrite where_fmap_spec in Hi.
  - destruct Hi as (r0 & Hr0 & Hneg). rewrite Hr in Hr0. injection Hr0 as <-.
    by rewrite Hneg.
  - destruct (r !!! 1%nat <? 0)%float eqn:E; [|reflexivity].
    exfalso. apply Hi. eauto.
Qed.

Lemma given_row_wide data thr s i r :
  wf_ndarray data -> load_from_table data thr = Ok s ->
  rows (ensure_2d data) !! i = Some r -> length r = column_count data /\ 4 <= length r.
Proof.
  intros Hwf Hs Hr. pose proof (load_from_table_columns _ _ _ Hs) as Hcols.
  apply wf_ensure_2d in Hwf. eapply Forall_lookup_1 in Hwf; [|exact Hr].
  replace (shape1 (ensure_2d data)) with (column_count data) in Hwf by (by destruct data).
  lia.
Qed.

Lemma stored_row_given data thr s i r' :
  load_from_table data thr = Ok s ->
  rows (raw s) !! i = Some r' ->
  exists r, rows (ensure_2d data) !! i = Some r /\
            r' = if (r !!! 1%nat <? 0)%float then flip_row r else r.
Proof.
  intros Hs Hr'. pose proof (load_from_table_rows _ _ _ Hs) as (_ & Hlen & _).
  assert (is_Some (rows (ensure_2d data) !! i)) as [r Hr].
  { apply lookup_lt_is_Some. rewrite <- Hlen. by apply lookup_lt_Some in Hr'. }
  exists r. split; [exact Hr|].
  rewrite (stored_row_lookup _ _ _ _ _ Hs Hr) in Hr'. congruence.
Qed.

Lemma stored_y_not_negative data thr s i r' :
  wf_ndarray data -> load_from_table data thr = Ok s ->
  rows (raw s) !! i = Some r' ->
  length r' = column_count data /\ (r' !!! 1%nat <? 0)%float = false.
Proof.
  intros Hwf Hs Hr'. destruct (stored_row_given _ _ _ _ _ Hs Hr') as (r & Hr & ->).
  destruct (given_row_wide _ _ _ _ _ Hwf Hs Hr) as [Hlen Hwide].
  destruct (r !!! 1%nat <? 0)%float eqn:E; [|auto].
  rewrite length_flip_row, flip_row_y by lia. split; [exact Hlen|].
  apply (opp_negative _ E).
Qed.

(** C8, amended in its last clause.  A row whose column 1 (Y) is negative
    is stored with its columns 0-2 negated, and any other row is stored as
    given; either way the row keeps its length and its columns 3..end.
    After construction no stored row has a negative Y, and Y >= 0 holds
    for every stored row whose Y is not NaN (a NaN Y is left as it is). *)
Theorem sign_normalization data thr s :
  wf_ndarray data ->
  load_from_table data thr = Ok s ->
  let given := rows (ensure_2d data) in
  let stored := rows (raw s) in
  length stored = length given /\
  (forall i r, given !! i = Some r ->
     ((r !!! 1%nat <? 0)%float = true ->
        stored !! i = Some (map PrimFloat.opp (take 3 r) ++ drop 3 r)) /\
     ((r !!! 1%nat <? 0)%float = false -> stored !! i = Some r)) /\
  (forall i r r', given !! i = Some r -> stored !! i = Some r' ->
     length r' = length r /\ drop 3 r' = drop 3 r) /\
  (forall i r', stored !! i = Some r' ->
     (r' !!! 1%nat <? 0)%float = false /\
     (PrimFloat.is_nan (r' !!! 1%nat) = false -> (0 <=? r' !!! 1%nat)%float = true)).
Proof.
  intros Hwf Hs given stored.
  pose proof (load_from_table_rows _ _ _ Hs) as (_ & Hlen & _).
  refine (conj Hlen (conj _ (conj _ _))).
  - intros i r Hr. unfold stored. rewrite (stored_row_lookup _ _ _ _ _ Hs Hr).
    split; intros ->; reflexivity.
  - intros i r r' Hr Hr'. unfold stored in Hr'.
    rewrite (stored_row_lookup _ _ _ _ _ Hs Hr) in Hr'. injection Hr' as <-.
    destruct (r !!! 1%nat <? 0)%float; [|auto].
    split; [apply length_flip_row|apply drop_flip_row].
  - intros i r' Hr'.
    destruct (stored_y_not_negative _ _ _ _ _ Hwf Hs Hr') as [_ Hy].
    split; [exact Hy|]. rewrite is_nan_fnan. intros Hn. by apply not_negative_nonneg.
Qed.

(** C8 on the scenario of section 8: row 2 is negated, row 0 is not. *)
Lemma sign_normalization_witness :
  exists s, load_from_table ex_bvalue 0 = Ok s /\
    rows (raw s) !! 2 = Some [-0; 1; -0; 0]%float /\
    rows (raw s) !! 0 = Some [1; 0; 0; 1000]%float.
Proof.
  exists (scheme_of ex_bvalue 0). split; [reflexivity|].
  destruct (sign_normalization ex_bvalue 0 (scheme_of ex_bvalue 0)) as (_ & Hrow & _).
  { repeat constructor. }
  { reflexivity. }
  split.
  - exact (proj1 (Hrow 2 _ eq_refl) eq_refl).
  - exact (proj2 (Hrow 0 _ eq_refl) eq_refl).
Defined.

(** C8 as stated fails on [ex_nan_y]: the stored Y is NaN, and
    [0 <= NaN] is false. *)
Lemma sign_normalization_nan_counterexample :
  exists s r, load_from_table ex_nan_y 0 = Ok s /\
    rows (raw s) !! 0 = Some r /\ (0 <=? r !!! 1%nat)%float = false.
Proof. exists (scheme_of ex_nan_y 0), [1; nan; 0; 1000]%float. repeat split. Qed.

(** ** Shells *)

Lemma first_occurrences_spec tmp r :
  r ∈ first_occurrences tmp <->
  r < length tmp /\ forall j, j < r -> Np.row_eq (tmp !!! j) (tmp !!! r) = false.
Proof.
  unfold first_occurrences. rewrite list_elem_of_filter, elem_of_seq, is_first_spec.
  unfold Np.row. intuition lia.
Qed.

Lemma shell_rows_spec thr bs tmp r :
  r ∈ shell_rows thr bs tmp <->
  r < length tmp /\
  (forall j, j < r -> Np.row_eq (tmp !!! j) (tmp !!! r) = false) /\
  ((bs !!! r) <=? thr)%float = false.
Proof. unfold shell_rows. rewrite list_elem_of_filter, first_occurrences_spec. tauto. Qed.

Lemma shell_rows_sorted thr bs tmp : StronglySorted lt (shell_rows thr bs tmp).
Proof. apply StronglySorted_filter, first_occurrences_sorted. Qed.

Lemma make_shell_idx ver rs tmp u bu j :
  j ∈ shell_idx (make_shell ver rs tmp u bu) <->
  j < length tmp /\ Np.row_eq (tmp !!! j) u = true.
Proof.
  assert (shell_idx (make_shell ver rs tmp u bu)
          = Np.where_ (map (fun r => Np.row_eq r u) tmp)) as ->.
  { unfold make_shell. destruct (Nat.eqb ver 0); [reflexivity|].
    destruct (Nat.eqb ver 1); reflexivity. }
  rewrite where_fmap_spec. split.
  - intros (r & Hr & Heq). split; [by apply lookup_lt_Some in Hr|].
    by rewrite (list_lookup_total_correct _ _ _ Hr).
  - intros [Hj Heq]. apply lookup_lt_is_Some_2 in Hj as [r Hr].
    rewrite (list_lookup_total_correct _ _ _ Hr) in Heq. eauto.
Qed.

Lemma make_shell_b ver rs tmp u bu : shell_b (make_shell ver rs tmp u bu) = bu.
Proof.
  unfold make_shell. destruct (Nat.eqb ver 0); [reflexivity|].
  destruct (Nat.eqb ver 1); reflexivity.
Qed.

Lemma descriptor_length data thr s r :
  wf_ndarray data -> load_from_table data thr = Ok s ->
  r < length (rows (raw s)) ->
  length (map (drop 3) (rows (raw s)) !!! r) = column_count data - 3.
Proof.
  intros Hwf Hs Hr.
  pose proof (load_from_table_rows _ _ _ Hs) as (HD & Hlen & _).
  rewrite HD. rewrite Hlen in Hr. apply lookup_lt_is_Some_2 in Hr as [x Hx].
  change (map ?f ?l) with (f <$> l).
  rewrite (list_lookup_total_fmap (drop 3) (rows (ensure_2d data)) r)
    by (by apply lookup_lt_Some in Hx).
  rewrite (list_lookup_total_correct _ _ _ Hx), length_drop.
  apply wf_ensure_2d in Hwf. eapply Forall_lookup_1 in Hwf; [|exact Hx].
  rewrite Hwf. by destruct data.
Qed.

Lemma make_shell_descriptor ver rs tmp u :
  (ver = 0 /\ length u = 1) \/ (ver = 1 /\ length u = 4) \/ (ver = 2 /\ 1 <= length u) ->
  shell_descriptor ver (make_shell ver rs tmp u (b_of_descriptor ver u)) = Some u.
Proof.
  intros [[-> Hu]|[[-> Hu]|[-> Hu]]]; unfold shell_descriptor, make_shell, b_of_descriptor; simpl.
  - destruct u as [|x [|? ?]]; try discriminate. reflexivity.
  - destruct u as [|x1 [|x2 [|x3 [|x4 [|? ?]]]]]; try discriminate. reflexivity.
  - destruct u as [|x u]; simpl in Hu; [lia|]. reflexivity.
Qed.

(** C5.  The shells come in the order of the first occurrences of the
    distinct descriptor rows (columns 3..end, compared entry by entry with
    float equality), scanning the rows from 0 upwards.  There is a strictly
    increasing list [reps] of rows, namely the rows that no earlier row
    equals in its descriptor and whose b-value is not at or below the
    threshold, such that the k-th shell carries the descriptor and the
    b-value of the k-th row of [reps], and its index list holds, in
    increasing order, exactly the rows whose descriptor equals that one. *)
Theorem shells_first_occurrence_order data thr s :
  wf_ndarray data ->
  load_from_table data thr = Ok s ->
  let D := map (drop 3) (rows (raw s)) in
  exists reps : list nat,
    StronglySorted lt reps /\
    (forall r, r ∈ reps <->
       r < length D /\
       (forall j, j < r -> Np.row_eq (D !!! j) (D !!! r) = false) /\
       ((b s !!! r) <=? thr)%float = false) /\
    Forall2 (fun r sh =>
               shell_descriptor (version s) sh = Some (D !!! r) /\
               shell_b sh = b s !!! r /\
               StronglySorted lt (shell_idx sh) /\
               forall j, j ∈ shell_idx sh <->
                         j < length D /\ Np.row_eq (D !!! j) (D !!! r) = true)
            reps (shells s).
Proof.
  intros Hwf Hs D. exists (shell_rows thr (b s) D).
  split; [apply shell_rows_sorted|]. split; [apply shell_rows_spec|].
  rewrite (shells_spec _ _ _ Hwf Hs). fold D.
  change (map ?f ?l) with (f <$> l). apply Forall2_fmap_r, Forall_Forall2_diag.
  apply Forall_forall. intros r Hr. apply shell_rows_spec in Hr as (Hr & _ & _).
  assert (b s !!! r = b_of_descriptor (version s) (D !!! r)) as Hbr.
  { rewrite (b_from_stored_rows _ _ _ Hs).
    rewrite <- (map_map (drop 3) (b_of_descriptor (version s))). fold D.
    change (map ?f ?l) with (f <$> l).
    by rewrite (list_lookup_total_fmap (b_of_descriptor (version s)) D r). }
  split; [|split; [apply make_shell_b|split; [|apply make_shell_idx]]].
  - rewrite Hbr. apply make_shell_descriptor.
    unfold D in Hr. rewrite length_map in Hr.
    pose proof (descriptor_length _ _ _ r Hwf Hs Hr) as Hlen. fold D in Hlen.
    destruct (load_from_table_version _ _ _ Hs) as [[? ?]|[[? ?]|[? ?]]];
      [left|right; left|right; right]; split; auto; lia.
  - assert (shell_idx (make_shell (version s) (rows (raw s)) D (D !!! r) (b s !!! r))
            = Np.where_ (map (fun r0 => Np.row_eq r0 (D !!! r)) D)) as ->.
    { unfold make_shell. destruct (Nat.eqb (version s) 0); [reflexivity|].
      destruct (Nat.eqb (version s) 1); reflexivity. }
    apply where_sorted.
Qed.

(** C5 on [ex_stejskal_tanner]: the shell of G = 2e-3 (rows 0 and 2) comes
    before the shell of G = 1e-3 (row 1), which a sort by value would put
    first. *)
Lemma shells_first_occurrence_order_witness :
  exists s, load_from_table ex_stejskal_tanner 0 = Ok s /\
    map shell_idx (shells s) = [[0; 2]; [1]] /\
    map shell_G (shells s) = [Some 2e-3; Some 1e-3]%float.
Proof.
  exists (scheme_of ex_stejskal_tanner 0). split; [reflexivity|].
  destruct (shells_first_occurrence_order ex_stejskal_tanner 0
              (scheme_of ex_stejskal_tanner 0)) as (reps & _ & _ & _).
  { repeat constructor. }
  { reflexivity. }
  split; reflexivity.
Defined.

Section ShellPartition.

Variables (data : ndarray) (thr : float) (s : Scheme).

Hypothesis Hwf : wf_ndarray data.

Hypothesis Hs : load_from_table data thr = Ok s.

Abbreviation D := (map (drop 3) (rows (raw s))).

Abbreviation N := (length (rows (raw s))).

Lemma descriptor_row_eq i j :
  i < N -> j < N ->
  Np.row_eq (D !!! j) (D !!! i) = true <->
  rowkey (D !!! j) = rowkey (D !!! i) /\ Forall (fun x => fnan x = false) (D !!! i).
Proof.
  intros Hi Hj. apply row_eq_true.
  rewrite !(descriptor_length data thr s) by auto. reflexivity.
Qed.

Lemma b_lookup_descriptor i :
  i < N -> b s !! i = Some (b_of_descriptor (version s) (D !!! i)).
Proof.
  intros Hi. rewrite (b_from_stored_rows _ _ _ Hs).
  apply lookup_lt_is_Some_2 in Hi as [r Hr].
  change (map ?f ?l) with (f <$> l).
  rewrite list_lookup_fmap, Hr. simpl.
  rewrite (list_lookup_total_fmap (drop 3) (rows (raw s)) i)
    by (by apply lookup_lt_Some in Hr).
  by rewrite (list_lookup_total_correct _ _ _ Hr).
Qed.

Lemma b_key_descriptor i j :
  i < N -> j < N -> rowkey (D !!! j) = rowkey (D !!! i) ->
  key (b s !!! j) = key (b s !!! i).
Proof.
  intros Hi Hj HK.
  rewrite (list_lookup_total_correct _ _ _ (b_lookup_descriptor i Hi)).
  rewrite (list_lookup_total_correct _ _ _ (b_lookup_descriptor j Hj)).
  by apply b_of_descriptor_key.
Qed.

Lemma shells_lookup k sh :
  shells s !! k = Some sh <->
  exists r, shell_rows thr (b s) D !! k = Some r /\
            sh = make_shell (version s) (rows (raw s)) D (D !!! r) (b s !!! r).
Proof.
  rewrite (shells_spec _ _ _ Hwf Hs). change (map ?f ?l) with (f <$> l).
  rewrite list_lookup_fmap_Some. split; intros (r & ? & ?); eauto.
Qed.

(** A baseline row is in no shell, whatever the table holds. *)
Lemma baseline_in_no_shell i sh :
  i ∈ b0_idx s -> sh ∈ shells s -> i ∉ shell_idx sh.
Proof.
  intros Hi Hsh Hin.
  apply list_elem_of_lookup in Hsh as [k Hk]. apply shells_lookup in Hk as (r & Hr & ->).
  apply make_shell_idx in Hin as [HiN Heq]. rewrite length_map in HiN.
  assert (r ∈ shell_rows thr (b s) D) as Hrin by (apply list_elem_of_lookup; eauto).
  apply shell_rows_spec in Hrin as (HrN & _ & Hnb). rewrite length_map in HrN.
  apply descriptor_row_eq in Heq as [HK _]; auto.
  pose proof (load_from_table_inv _ _ _ Hs) as (_ & _ & Hb0 & _).
  rewrite Hb0 in Hi. apply where_fmap_spec in Hi as (x & Hx & Hle).
  rewrite <- (list_lookup_total_correct _ _ _ Hx) in Hle.
  rewrite (key_leb _ _ thr (b_key_descriptor r i HrN HiN HK)) in Hle. congruence.
Qed.

Hypothesis Hthr : (0 <=? thr)%float = true.

Hypothesis Hb : nan_free (b s) = true.

Hypothesis HD : forallb nan_free D = true.

Lemma descriptor_nan_free i : i < N -> Forall (fun x => fnan x = false) (D !!! i).
Proof.
  intros Hi. apply nan_free_Forall.
  rewrite forallb_forall in HD. apply HD, list_elem_of_In, list_elem_of_lookup_total_2.
  by rewrite length_map.
Qed.

Lemma first_representative i :
  i < N ->
  exists r, r <= i /\ r ∈ first_occurrences D /\ rowkey (D !!! r) = rowkey (D !!! i).
Proof.
  induction (lt_wf i) as [i _ IH]. intros Hi.
  destruct (is_first D i) eqn:E.
  - exists i. split; [lia|]. split; [|reflexivity].
    unfold first_occurrences. apply list_elem_of_filter. split; [exact E|].
    apply elem_of_seq. rewrite length_map. lia.
  - unfold is_first in E. apply forallb_false_exists in E as (j & Hj & Heq).
    apply in_seq in Hj. apply negb_false_iff in Heq.
    apply descriptor_row_eq in Heq as [HK _]; [|lia..].
    destruct (IH j) as (r & Hr & Hfirst & HKr); [lia..|].
    exists r. split; [lia|]. split; [exact Hfirst|congruence].
Qed.

Lemma shells_partition :
  (forall i, i ∈ dwi_idx s ->
     exists k sh, shells s !! k = Some sh /\ i ∈ shell_idx sh /\
       forall k' sh', shells s !! k' = Some sh' -> i ∈ shell_idx sh' -> k' = k) /\
  (forall i sh, i ∈ b0_idx s -> sh ∈ shells s -> i ∉ shell_idx sh) /\
  (forall i, (exists sh, sh ∈ shells s /\ i ∈ shell_idx sh) <-> i ∈ dwi_idx s).
Proof.
  pose proof (load_from_table_inv _ _ _ Hs) as (_ & _ & _ & _ & Hdwi & _).
  pose proof (load_from_table_rows _ _ _ Hs) as (_ & Hlen & Hlb & _).
  assert (Hweighted : forall i, i ∈ dwi_idx s <->
            i < N /\ (thr <? b s !!! i)%float = true).
  { intros i. rewrite Hdwi, where_fmap_spec. split.
    - intros (x & Hx & Hgt). rewrite (list_lookup_total_correct _ _ _ Hx).
      split; [|exact Hgt]. apply lookup_lt_Some in Hx. lia.
    - intros [Hi Hgt]. exists (b s !!! i). split; [|exact Hgt].
      apply list_lookup_lookup_total_lt. lia. }
  assert (Hone : forall i, i ∈ dwi_idx s ->
     exists k sh, shells s !! k = Some sh /\ i ∈ shell_idx sh /\
       forall k' sh', shells s !! k' = Some sh' -> i ∈ shell_idx sh' -> k' = k).
  { intros i [Hi Hgt]%Hweighted.
    destruct (first_representative i Hi) as (r & Hri & Hfirst & HK).
    assert (r < N) as Hr by lia.
    assert (r ∈ shell_rows thr (b s) D) as Hrin.
    { unfold shell_rows. apply list_elem_of_filter. split; [|exact Hfirst].
      rewrite <- (key_gtb _ _ thr (b_key_descriptor i r Hi Hr HK)) in Hgt.
      destruct ((b s !!! r) <=? thr)%float eqn:Ele; [|reflexivity].
      apply leb_gtb_disjoint in Ele. congruence. }
    apply list_elem_of_lookup in Hrin as [k Hk].
    exists k, (make_shell (version s) (rows (raw s)) D (D !!! r) (b s !!! r)).
    split; [apply shells_lookup; eauto|]. split.
    - apply make_shell_idx. rewrite length_map. split; [exact Hi|].
      apply descriptor_row_eq; auto. split; [congruence|by apply descriptor_nan_free].
    - intros k' sh' (r' & Hk' & ->)%shells_lookup [_ Heq]%make_shell_idx.
      assert (r' ∈ shell_rows thr (b s) D) as Hr'in by (apply list_elem_of_lookup; eauto).
      apply shell_rows_spec in Hr'in as (Hr' & Hfirst' & _). rewrite length_map in Hr'.
      apply descriptor_row_eq in Heq as [HK' _]; auto.
      apply first_occurrences_spec in Hfirst as [_ Hfirst].
      assert (r = r') as <-.
      { destruct (lt_eq_lt_dec r r') as [[Hlt| ->]|Hlt]; [|reflexivity|]; exfalso.
        - specialize (Hfirst' r Hlt).
          rewrite (proj2 (descriptor_row_eq r' r Hr' Hr)) in Hfirst'; [discriminate|].
          split; [congruence|by apply descriptor_nan_free].
        - specialize (Hfirst r' Hlt).
          rewrite (proj2 (descriptor_row_eq r r' Hr Hr')) in Hfirst; [discriminate|].
          split; [congruence|by apply descriptor_nan_free]. }
      eapply NoDup_lookup;
        [apply StronglySorted_lt_NoDup, (shell_rows_sorted thr (b s) D)|eauto..]. }
  split; [exact Hone|]. split; [exact baseline_in_no_shell|].
  intros i. split.
  - intros (sh & Hsh & Hin). apply Hweighted.
    apply list_elem_of_lookup in Hsh as [k Hk]. apply shells_lookup in Hk as (r & Hr & ->).
    apply make_shell_idx in Hin as [HiN Heq]. rewrite length_map in HiN.
    assert (r ∈ shell_rows thr (b s) D) as Hrin by (apply list_elem_of_lookup; eauto).
    apply shell_rows_spec in Hrin as (HrN & _ & Hnb). rewrite length_map in HrN.
    apply descriptor_row_eq in Heq as [HK _]; auto.
    split; [exact HiN|].
    rewrite (key_gtb _ _ thr (b_key_descriptor r i HrN HiN HK)).
    assert (fnan (b s !!! r) = false) as Hnr.
    { apply nan_free_Forall in Hb. eapply Forall_forall in Hb; [exact Hb|].
      apply list_elem_of_lookup_total_2. lia. }
    rewrite (leb_gtb_total _ _ Hnr (leb_not_nan _ _ Hthr)) in Hnb.
    by apply negb_false_iff in Hnb.
  - intros Hi. destruct (Hone i Hi) as (k & sh & Hk & Hin & _).
    exists sh. split; [|exact Hin]. apply list_elem_of_lookup. eauto.
Qed.

End ShellPartition.

(** C4, amended: for a table whose descriptor columns (3..end) and
    b-values hold no NaN, and a non-negative threshold.  Every weighted
    row (b > b0_thr) is in the index list of exactly one shell; no baseline
    row (b <= b0_thr) is in the index list of any shell; and the rows found
    in the index lists of the shells are exactly the weighted rows. *)
Theorem shells_partition_weighted data thr s :
  wf_ndarray data ->
  load_from_table data thr = Ok s ->
  (0 <=? thr)%float = true ->
  nan_free (b s) = true ->
  forallb nan_free (map (drop 3) (rows (raw s))) = true ->
  (forall i, i ∈ dwi_idx s ->
     exists k sh, shells s !! k = Some sh /\ i ∈ shell_idx sh /\
       forall k' sh', shells s !! k' = Some sh' -> i ∈ shell_idx sh' -> k' = k) /\
  (forall i sh, i ∈ b0_idx s -> sh ∈ shells s -> i ∉ shell_idx sh) /\
  (forall i, (exists sh, sh ∈ shells s /\ i ∈ shell_idx sh) <-> i ∈ dwi_idx s).
Proof. intros Hwf Hs Hthr Hb HD. exact (shells_partition data thr s Hwf Hs Hthr Hb HD). Qed.

(** C4 on [ex_stejskal_tanner]: rows 0-2 are weighted and in the shells,
    row 3 is baseline. *)
Lemma shells_partition_weighted_witness :
  exists s, load_from_table ex_stejskal_tanner 0 = Ok s /\
    dwi_idx s = [0; 1; 2] /\ b0_idx s = [3] /\
    forall i, (exists sh, sh ∈ shells s /\ i ∈ shell_idx sh) <-> i ∈ dwi_idx s.
Proof.
  exists (scheme_of ex_stejskal_tanner 0). split; [reflexivity|].
  split; [reflexivity|]. split; [reflexivity|].
  apply (shells_partition_weighted ex_stejskal_tanner 0).
  - repeat constructor.
  - reflexivity.
  - reflexivity.
  - reflexivity.
  - reflexivity.
Defined.

(** C4 as stated fails on [ex_nan_TE]: row 0 is weighted, and the index
    list of the only shell is empty, since NaN equals nothing. *)
Lemma shells_partition_nan_counterexample :
  exists s, load_from_table ex_nan_TE 0 = Ok s /\
    dwi_idx s = [0] /\ map shell_idx (shells s) = [[]].
Proof. exists (scheme_of ex_nan_TE 0). repeat split. Qed.

(** ** The Camino file *)

Section CaminoText.

Variable str_float : float -> string.

Variable round_float : float -> nat -> float.

Variable savetxt : list (list float) -> string -> string -> string ->
                   string -> string.

Lemma write_Camino_wf_text x y z TE (g : list float) f :
  write_Camino_wf str_float round_float (length g) TE
    (map (fun v => (x * v)%float) g) (map (fun v => (y * v)%float) g)
    (map (fun v => (z * v)%float) g) f
  = f +:+ (pretty (length g) +:+ " " +:+
           str_float (TE / float_of_nat (length g))%float +:+ " " +:+
           join (map (camino_sample str_float round_float x y z) g) +:+ newline).
Proof.
  unfold write_Camino_wf. cbv zeta.
  rewrite (foldl_ext_in _
    (fun f i => f +:+ camino_sample str_float round_float x y z (g !!! i))).
  - rewrite foldl_append_join.
    rewrite (map_seq_lookup (camino_sample str_float round_float x y z) [] g).
    rewrite !append_assoc. reflexivity.
  - intros acc i Hi. apply elem_of_seq in Hi.
    change (map ?h g) with (h <$> g).
    rewrite !(list_lookup_total_fmap _ g i) by lia.
    unfold camino_sample. rewrite !append_assoc. reflexivity.
Qed.

Lemma write_Camino_row_text r f :
  write_Camino_wf str_float round_float (length (drop 4 r)) (r !!! 3)
    (map (fun v => ((r !!! 0%nat) * v)%float) (drop 4 r))
    (map (fun v => ((r !!! 1%nat) * v)%float) (drop 4 r))
    (map (fun v => ((r !!! 2%nat) * v)%float) (drop 4 r)) f
  = f +:+ camino_row str_float round_float r.
Proof.
  rewrite write_Camino_wf_text. reflexivity.
Qed.

Lemma write_Camino_schemefile_text self :
  write_Camino_schemefile str_float round_float savetxt self =
  if Nat.eqb (version self) 1 then
    Some (savetxt (rows (raw self)) "%15.8e" " " "VERSION: STEJSKALTANNER" "")
  else if Nat.eqb (version self) 2 then
    Some (camino_waveform_text str_float round_float
            "VERSION: GRADIENT_WAVEFORM " self)
  else None.
Proof.
  unfold write_Camino_schemefile.
  destruct (Nat.eqb (version self) 1); [reflexivity|].
  destruct (Nat.eqb (version self) 2); [|reflexivity].
  cbv zeta. f_equal.
  rewrite (foldl_ext_in _
    (fun f i => f +:+ camino_row str_float round_float (rows (raw self) !!! i))).
  - rewrite foldl_append_join. unfold shape0.
    rewrite (map_seq_lookup (camino_row str_float round_float) [] (rows (raw self))).
    rewrite append_assoc. reflexivity.
  - intros acc i _. apply write_Camino_row_text.
Qed.

End CaminoText.

(** C9, amended in its header line.  The file written for a WAVEFORM
    scheme is the header [VERSION: GRADIENT_WAVEFORM] followed by a space
    and a newline, then one line per row: the sample count, a space,
    dt = TE / sample count, a space, then for each sample in order the
    sample times the row's x, y and z, each rounded to 5 decimals and
    followed by a space, and a newline. *)
Theorem camino_waveform_file str_float round_float savetxt s :
  version s = 2 ->
  write_Camino_schemefile str_float round_float savetxt s =
  Some (camino_waveform_text str_float round_float "VERSION: GRADIENT_WAVEFORM " s).
Proof. intros Hv. rewrite write_Camino_schemefile_text, Hv. reflexivity. Qed.

(** C9 on [ex_waveform], whatever the float formatting is. *)
Lemma camino_waveform_file_witness :
  exists s, load_from_table ex_waveform 0 = Ok s /\
    forall str_float round_float savetxt,
      write_Camino_schemefile str_float round_float savetxt s =
      Some (camino_waveform_text str_float round_float "VERSION: GRADIENT_WAVEFORM " s).
Proof.
  exists (scheme_of ex_waveform 0). split; [reflexivity|].
  intros str_float round_float savetxt.
  exact (camino_waveform_file str_float round_float savetxt (scheme_of ex_waveform 0) eq_refl).
Defined.

(** C9 as stated fails on [ex_waveform]: character 26 of the file is the
    space that follows the header, where the text of the claim has the
    newline. *)
Lemma camino_header_counterexample :
  exists s, load_from_table ex_waveform 0 = Ok s /\
    forall str_float round_float savetxt,
      exists file,
        write_Camino_schemefile str_float round_float savetxt s = Some file /\
        String.get 26 file = Some (Ascii.ascii_of_nat 32) /\
        String.get 26 (camino_waveform_text str_float round_float
                         "VERSION: GRADIENT_WAVEFORM" s) = Some (Ascii.ascii_of_nat 10).
Proof.
  exists (scheme_of ex_waveform 0). split; [reflexivity|].
  intros str_float round_float savetxt. eexists. split.
  - rewrite write_Camino_schemefile_text. reflexivity.
  - split; reflexivity.
Qed.

(** C1 (the code departs from it).  [to_version_1] solves G from a b-value
    in s/mm^2 without undoing the factor 1e-6 of line 81, so the b-values
    of the scheme it builds are a millionth of the source's.  On row 0 of
    [ex_waveform] the source b-value is 33546975.396 and the converted
    scheme's is 33.547: the two are not within 1% of each other, and the
    second is within 1e-9 of 1e-6 times the first. *)
Lemma to_version_1_rescales_b :
  exists s s' x x',
    load_from_table ex_waveform 0 = Ok s /\
    to_version_1 s = Ok (ReturnsNew s', s) /\
    version s' = 1 /\
    b s !! 0 = Some x /\ b s' !! 0 = Some x' /\
    x = 33546975.396007925%float /\ x' = 33.54697539600793%float /\
    close_to (1 # 100) x' x = false /\
    close_to (1 # 1000000000) x' (x * 1e-6)%float = true.
Proof.
  exists (scheme_of ex_waveform 0).
  eexists. eexists. eexists.
  split; [reflexivity|]. split; [vm_compute; reflexivity|].
  repeat split.
Qed.

(** ** Conversion to version 1 *)

Lemma where_all_false {A} (f : A -> bool) (l : list A) :
  Forall (fun x => f x = false) l -> Np.where_ (map f l) = [].
Proof.
  intros H. unfold Np.where_. generalize 0.
  induction H as [|x l Hx _ IH]; intros k; simpl; [reflexivity|].
  rewrite Hx. apply IH.
Qed.

(** On a WAVEFORM scheme [to_version_1] leaves the source as it was and
    returns a new STEJSKAL_TANNER scheme, built with the default threshold
    0, whose table has per row: columns 0-2 of the source row,
    G = sqrt(b / (gamma^2 * delta^2 * (Delta - delta/3))) with
    gamma = 267.513e6, Delta = 0.025 and delta = 0.010, then Delta, delta
    and the source's TE (column 3). *)
Theorem to_version_1_waveform data thr s :
  wf_ndarray data ->
  load_from_table data thr = Ok s ->
  7 < column_count data ->
  exists s',
    to_version_1 s = Ok (ReturnsNew s', s) /\
    format_of s' = Some STEJSKAL_TANNER /\
    b0_thr s' = 0%float /\
    raw s' =
      Matrix 7 (zip_with
                  (fun value r =>
                     take 3 r ++
                       [PrimFloat.sqrt
                          (value / (267.513e6 * 267.513e6 * 0.010 * 0.010
                                    * (0.025 - 0.010 / 3)))%float;
                        0.025%float; 0.010%float; r !!! 3])
                  (b s) (rows (raw s))).
Proof.
  intros Hwf Hs HM.
  assert (version s = 2) as Hv.
  { destruct (load_from_table_version _ _ _ Hs) as [[? ?]|[[? ?]|[? ?]]]; [lia..|assumption]. }
  set (dataBis := Matrix 7 (zip_with to_version_1_row (b s) (rows (raw s)))).
  destruct (load_from_table (Array2D dataBis) 0) as [s'|e] eqn:Hs'.
  2:{ unfold load_from_table, load_from_table_with in Hs'. simpl in Hs'. discriminate. }
  exists s'. split.
  { unfold to_version_1, Scheme_init. rewrite Hv.
    change (Nat.eqb 2 1) with false. change (Nat.eqb 2 2) with true. cbv iota.
    fold dataBis. change (default 0%float None) with 0%float. rewrite Hs'. reflexivity. }
  pose proof (load_from_table_inv _ _ _ Hs') as (Hvb & Hthr & _ & _ & _ & _ & Hraw & _).
  split; [|split; [exact Hthr|]].
  - unfold format_of.
    destruct (load_from_table_version _ _ _ Hs') as [[? H4]|[[-> _]|[_ H8]]];
      simpl in *; [lia|reflexivity|lia].
  - rewrite Hraw. simpl. f_equal.
    assert (negative_y dataBis = []) as ->.
    { unfold negative_y. apply where_all_false. simpl.
      apply Forall_forall. intros row Hrow.
      apply elem_of_lookup_zip_with in Hrow as (i & value & r & -> & _ & Hr).
      destruct (stored_y_not_negative _ _ _ _ _ Hwf Hs Hr) as [Hlen Hy].
      unfold to_version_1_row.
      destruct r as [|x0 [|x1 [|x2 r]]]; simpl in Hlen; try lia. exact Hy. }
    reflexivity.
Qed.

(** The conversion of [ex_waveform]: row 1, whose b-value is 0. *)
Lemma to_version_1_waveform_witness :
  exists s s', load_from_table ex_waveform 0 = Ok s /\
    to_version_1 s = Ok (ReturnsNew s', s) /\
    rows (raw s') !! 1 = Some [-0; 1; -0; 0; 0.025; 0.010; 0.1]%float.
Proof.
  exists (scheme_of ex_waveform 0).
  destruct (to_version_1_waveform ex_waveform 0 (scheme_of ex_waveform 0))
    as (s' & Hto & _ & _ & Hraw).
  { repeat constructor. }
  { reflexivity. }
  { simpl. lia. }
  exists s'. split; [reflexivity|]. split; [exact Hto|].
  rewrite Hraw. reflexivity.
Defined.

(** On a scheme built from a 7-column table [to_version_1] returns the
    scheme itself. *)
Theorem to_version_1_stejskal_tanner data thr s :
  load_from_table data thr = Ok s ->
  column_count data = 7 ->
  to_version_1 s = Ok (ReturnsSelf, s).
Proof.
  intros Hs H7.
  assert (version s = 1) as Hv.
  { destruct (load_from_table_version _ _ _ Hs) as [[? ?]|[[? ?]|[? ?]]]; [lia|assumption|lia]. }
  unfold to_version_1. rewrite Hv. reflexivity.
Qed.

Lemma to_version_1_stejskal_tanner_witness :
  exists s, load_from_table ex_stejskal_tanner 0 = Ok s /\
            to_version_1 s = Ok (ReturnsSelf, s).
Proof.
  exists (scheme_of ex_stejskal_tanner 0). split; [reflexivity|].
  exact (to_version_1_stejskal_tanner ex_stejskal_tanner 0
           (scheme_of ex_stejskal_tanner 0) eq_refl eq_refl).
Defined.

(** For a table with 4 columns the b-value of every row is its column 3. *)
Theorem bvalue_identity data thr s :
  load_from_table data thr = Ok s ->
  column_count data = 4 ->
  forall i r, rows (raw s) !! i = Some r -> b s !! i = Some (r !!! 3).
Proof.
  intros Hs H4 i r Hr.
  assert (version s = 0) as Hv.
  { destruct (load_from_table_version _ _ _ Hs) as [[? ?]|[[? ?]|[? ?]]]; [assumption|lia..]. }
  rewrite (b_from_stored_rows _ _ _ Hs). change (map ?f ?l) with (f <$> l).
  rewrite list_lookup_fmap, Hr. simpl. unfold b_of_descriptor. rewrite Hv. simpl.
  by rewrite lookup_total_drop3.
Qed.

Lemma bvalue_identity_witness :
  exists s, load_from_table ex_bvalue 0 = Ok s /\ b s !! 0 = Some 1000%float.
Proof.
  exists (scheme_of ex_bvalue 0). split; [reflexivity|].
  exact (bvalue_identity ex_bvalue 0 (scheme_of ex_bvalue 0) eq_refl eq_refl 0 _ eq_refl).
Defined.

(** ** Building a scheme from a stored table *)

Lemma version_and_b_columns m m' :
  shape1 m = shape1 m' ->
  map (drop 3) (rows m) = map (drop 3) (rows m') ->
  version_and_b m = version_and_b m'.
Proof.
  intros Hshape HD.
  destruct (version_and_b m) as [[ver bs]|e] eqn:E, (version_and_b m') as [[ver' bs']|e'] eqn:E'.
  - pose proof (version_and_b_descriptor _ _ _ E) as ->.
    pose proof (version_and_b_descriptor _ _ _ E') as ->.
    assert (ver = ver') as <-.
    { unfold version_and_b, version_and_b_with, ERROR in E, E'. rewrite <- Hshape in E'.
      destruct (Nat.eqb (shape1 m) 4); [congruence|].
      destruct (Nat.eqb (shape1 m) 7); [congruence|].
      destruct (Nat.ltb 7 (shape1 m)); congruence. }
    rewrite <- (map_map (drop 3) (b_of_descriptor ver) (rows m)), HD, map_map.
    reflexivity.
  - exfalso. unfold version_and_b, version_and_b_with, ERROR in E, E'. rewrite <- Hshape in E'.
    destruct (Nat.eqb (shape1 m) 4); [congruence|].
    destruct (Nat.eqb (shape1 m) 7); [congruence|].
    destruct (Nat.ltb 7 (shape1 m)); congruence.
  - exfalso. unfold version_and_b, version_and_b_with, ERROR in E, E'. rewrite <- Hshape in E'.
    destruct (Nat.eqb (shape1 m) 4); [congruence|].
    destruct (Nat.eqb (shape1 m) 7); [congruence|].
    destruct (Nat.ltb 7 (shape1 m)); congruence.
  - destruct e, e'. reflexivity.
Qed.

Lemma negate_directions_nil rs : negate_directions [] rs = rs.
Proof. reflexivity. Qed.

Lemma stored_negative_y data thr s :
  wf_ndarray data -> load_from_table data thr = Ok s -> negative_y (raw s) = [].
Proof.
  intros Hwf Hs. unfold negative_y. apply where_all_false.
  apply Forall_forall. intros r Hr. apply list_elem_of_lookup in Hr as [i Hi].
  by destruct (stored_y_not_negative _ _ _ _ _ Hwf Hs Hi).
Qed.

(** What [load_from_table] computes once the version and the b-values are
    known. *)
Lemma load_from_table_eq data thr ver bs :
  version_and_b (ensure_2d data) = Ok (ver, bs) ->
  load_from_table data thr =
  let rs := negate_directions (negative_y (ensure_2d data)) (rows (ensure_2d data)) in
  let tmp := map (drop 3) rs in
  let order := sorted (Np.unique_index tmp) in
  Ok {| raw := Matrix (shape1 (ensure_2d data)) rs;
        version := ver; b := bs; b0_thr := thr;
        b0_idx := Np.where_ (map (fun x => (x <=? thr)%float) bs);
        b0_count := length (Np.where_ (map (fun x => (x <=? thr)%float) bs));
        dwi_idx := Np.where_ (map (fun x => (thr <? x)%float) bs);
        dwi_count := length (Np.where_ (map (fun x => (thr <? x)%float) bs));
        shells := shells_loop ver thr rs tmp (map (fun index => tmp !!! index) order)
                    (map (fun index => bs !!! index) order) |}.
Proof.
  intros E. unfold load_from_table, load_from_table_with.
  change (version_and_b_with Np.dot) with version_and_b. rewrite E. reflexivity.
Qed.

Lemma load_from_table_stored data thr s thr' :
  wf_ndarray data -> load_from_table data thr = Ok s ->
  load_from_table (Array2D (raw s)) thr' =
  let tmp := map (drop 3) (rows (raw s)) in
  let order := sorted (Np.unique_index tmp) in
  Ok {| raw := raw s;
        version := version s; b := b s; b0_thr := thr';
        b0_idx := Np.where_ (map (fun x => (x <=? thr')%float) (b s));
        b0_count := length (Np.where_ (map (fun x => (x <=? thr')%float) (b s)));
        dwi_idx := Np.where_ (map (fun x => (thr' <? x)%float) (b s));
        dwi_count := length (Np.where_ (map (fun x => (thr' <? x)%float) (b s)));
        shells := shells_loop (version s) thr' (rows (raw s)) tmp
                    (map (fun index => tmp !!! index) order)
                    (map (fun index => b s !!! index) order) |}.
Proof.
  intros Hwf Hs.
  pose proof (load_from_table_inv _ _ _ Hs) as (Hvb & _ & _ & _ & _ & _ & Hraw & _).
  pose proof (load_from_table_rows _ _ _ Hs) as (HD & _).
  assert (version_and_b (ensure_2d (Array2D (raw s))) = Ok (version s, b s)) as E.
  { simpl. rewrite <- Hvb. apply version_and_b_columns; [by rewrite Hraw|exact HD]. }
  rewrite (load_from_table_eq _ _ _ _ E). simpl ensure_2d.
  rewrite (stored_negative_y _ _ _ Hwf Hs), negate_directions_nil.
  cbv zeta. by destruct (raw s).
Qed.

(** Building a scheme from the table a scheme stores, with the same
    threshold, gives that scheme again: construction is idempotent. *)
Theorem reconstruction_fixpoint data thr s :
  wf_ndarray data ->
  load_from_table data thr = Ok s ->
  load_from_table (Array2D (raw s)) thr = Ok s.
Proof.
  intros Hwf Hs. rewrite (load_from_table_stored _ _ _ _ Hwf Hs).
  pose proof (load_from_table_inv _ _ _ Hs)
    as (_ & Hthr & Hb0 & Hc0 & Hdwi & Hc1 & _ & Hsh).
  cbv zeta in *. rewrite <- Hsh, <- Hb0, <- Hdwi, <- Hc0, <- Hc1, <- Hthr.
  by destruct s.
Qed.

Lemma reconstruction_fixpoint_witness :
  exists s, load_from_table ex_bvalue 0 = Ok s /\
    rows (raw s) !! 2 = Some [-0; 1; -0; 0]%float /\
    load_from_table (Array2D (raw s)) 0 = Ok s.
Proof.
  exists (scheme_of ex_bvalue 0). split; [reflexivity|]. split; [reflexivity|].
  apply (reconstruction_fixpoint ex_bvalue 0).
  - repeat constructor.
  - reflexivity.
Defined.

(** ** The two index sets, whatever the b-values are *)

Lemma where_disjoint_length {A} (f g : A -> bool) (l : list A) :
  (forall x, f x = true -> g x = false) ->
  length (Np.where_ (map f l)) + length (Np.where_ (map g l)) <= length l.
Proof.
  intros Hfg. unfold Np.where_. generalize 0 at 1. generalize 0.
  induction l as [|x l IH]; intros k k'; simpl; [lia|].
  specialize (IH (S k) (S k')).
  destruct (f x) eqn:Ef; [rewrite (Hfg _ Ef)|destruct (g x)]; simpl; lia.
Qed.

Lemma nan_leb x t : fnan x = true -> (x <=? t)%float = false.
Proof.
  unfold fnan. rewrite FloatAxioms.leb_spec.
  destruct (Prim2SF x); try discriminate. by destruct (Prim2SF t).
Qed.

(** For every table and threshold, NaN included: the baseline and the
    weighted index lists are strictly increasing lists of row numbers
    below N that share no row, so that nS <= N; and for a threshold that
    is not NaN, the rows in neither list are exactly the rows whose
    b-value is NaN. *)
Theorem index_sets_sound data thr s :
  load_from_table data thr = Ok s ->
  let N := shape0 (raw s) in
  StronglySorted lt (b0_idx s) /\ StronglySorted lt (dwi_idx s) /\
  (forall i, i ∈ b0_idx s \/ i ∈ dwi_idx s -> i < N) /\
  (forall i, i ∈ b0_idx s -> i ∉ dwi_idx s) /\
  nS s <= N /\
  (PrimFloat.is_nan thr = false ->
   forall i, i < N ->
     ((i ∉ b0_idx s) /\ (i ∉ dwi_idx s)) <->
     exists x, b s !! i = Some x /\ PrimFloat.is_nan x = true).
Proof.
  intros Hs N.
  pose proof (load_from_table_inv _ _ _ Hs) as (_ & _ & Hb0 & Hc0 & Hdwi & Hc1 & _).
  pose proof (load_from_table_rows _ _ _ Hs) as (_ & Hlen & Hlb & _).
  assert (HN : length (b s) = N) by (unfold N, shape0; congruence).
  split; [rewrite Hb0; apply where_sorted|].
  split; [rewrite Hdwi; apply where_sorted|].
  split; [|split; [|split]].
  - intros i [Hi|Hi]; [rewrite Hb0 in Hi|rewrite Hdwi in Hi];
      apply where_fmap_spec in Hi as (x & Hx & _); apply lookup_lt_Some in Hx; lia.
  - intros i Hi Hi'. rewrite Hb0 in Hi. rewrite Hdwi in Hi'.
    apply where_fmap_spec in Hi as (x & Hx & Hle).
    apply where_fmap_spec in Hi' as (x' & Hx' & Hgt).
    rewrite Hx in Hx'. injection Hx' as <-.
    apply leb_gtb_disjoint in Hle. congruence.
  - unfold nS. rewrite Hc0, Hc1, Hb0, Hdwi, <- HN.
    apply where_disjoint_length. intros x. apply leb_gtb_disjoint.
  - intros Hthr i Hi. rewrite is_nan_fnan in Hthr.
    rewrite Hb0, Hdwi, !where_fmap_spec.
    destruct (lookup_lt_is_Some_2 (b s) i) as [x Hx]; [lia|].
    split.
    + intros [H0 H1]. exists x. split; [exact Hx|]. rewrite is_nan_fnan.
      destruct (fnan x) eqn:En; [reflexivity|exfalso].
      pose proof (leb_gtb_total x thr En Hthr) as Htot.
      destruct (thr <? x)%float eqn:Egt; [apply H1; eauto|].
      apply H0. exists x. by rewrite Htot.
    + intros (x' & Hx' & Hn). rewrite Hx in Hx'. injection Hx' as <-.
      rewrite is_nan_fnan in Hn.
      split; intros (y & Hy & Hc); rewrite Hx in Hy; injection Hy as <-.
      * by rewrite (nan_leb _ _ Hn) in Hc.
      * rewrite fltb_key, Hn in Hc. by destruct (lex3 _ _).
Qed.

Lemma index_sets_sound_witness :
  exists s, load_from_table ex_nan_b 0 = Ok s /\
    nS s <= shape0 (raw s) /\ b0_idx s = [] /\ dwi_idx s = [].
Proof.
  exists (scheme_of ex_nan_b 0). split; [reflexivity|].
  destruct (index_sets_sound ex_nan_b 0 (scheme_of ex_nan_b 0) eq_refl)
    as (_ & _ & _ & _ & HnS & _).
  split; [exact HnS|]. split; reflexivity.
Defined.

(** ** The threshold *)

Lemma fleb_trans x t t' :
  (x <=? t)%float = true -> (t <=? t')%float = true -> (x <=? t')%float = true.
Proof.
  rewrite !fleb_key. intros H1 H2.
  destruct (lex3 (key x) (key t)) eqn:E1; try discriminate.
  - apply lex3_eq in E1. by rewrite E1.
  - destruct (lex3 (key t) (key t')) eqn:E2; try discriminate.
    + apply lex3_eq in E2. by rewrite <- E2, E1.
    + by rewrite (lex3_lt_trans _ _ _ E1 E2).
Qed.

Lemma fleb_fltb_trans t t' x :
  (t <=? t')%float = true -> (t' <? x)%float = true -> (t <? x)%float = true.
Proof.
  rewrite fleb_key, !fltb_key. intros H1 H2.
  destruct (lex3 (key t') (key x)) eqn:E2; try discriminate.
  destruct (lex3 (key t) (key t')) eqn:E1; try discriminate.
  - apply lex3_eq in E1. by rewrite E1, E2.
  - by rewrite (lex3_lt_trans _ _ _ E1 E2).
Qed.

Lemma where_mono_length {A} (f g : A -> bool) (l : list A) :
  (forall x, f x = true -> g x = true) ->
  length (Np.where_ (map f l)) <= length (Np.where_ (map g l)).
Proof.
  intros Hfg. unfold Np.where_. generalize 0 at 1. generalize 0.
  induction l as [|x l IH]; intros k k'; simpl; [lia|].
  specialize (IH (S k) (S k')).
  destruct (f x) eqn:Ef; [rewrite (Hfg _ Ef)|destruct (g x)]; simpl; lia.
Qed.

(** The threshold only moves rows between the two sets: the table,
    the version and the b-values do not depend on it, and raising it from
    [thr] to [thr'] keeps every baseline row baseline and makes no row
    weighted that was not. *)
Theorem threshold_monotone data thr thr' s :
  load_from_table data thr = Ok s ->
  (thr <=? thr')%float = true ->
  exists s',
    load_from_table data thr' = Ok s' /\
    raw s' = raw s /\ version s' = version s /\ b s' = b s /\
    (forall i, i ∈ b0_idx s -> i ∈ b0_idx s') /\
    (forall i, i ∈ dwi_idx s' -> i ∈ dwi_idx s) /\
    b0_count s <= b0_count s' /\ dwi_count s' <= dwi_count s.
Proof.
  intros Hs Hle.
  pose proof (load_from_table_inv _ _ _ Hs) as (Hvb & _ & Hb0 & Hc0 & Hdwi & Hc1 & Hraw & _).
  rewrite (load_from_table_eq data thr' _ _ Hvb). cbv zeta.
  eexists. split; [reflexivity|]. simpl.
  split; [by rewrite Hraw|]. split; [reflexivity|]. split; [reflexivity|].
  rewrite Hb0, Hdwi, Hc0, Hc1, Hb0, Hdwi.
  split; [|split; [|split]].
  - intros i. rewrite !where_fmap_spec. intros (x & Hx & H). exists x.
    split; [exact Hx|]. by apply (fleb_trans x thr thr').
  - intros i. rewrite !where_fmap_spec. intros (x & Hx & H). exists x.
    split; [exact Hx|]. by apply (fleb_fltb_trans thr thr' x).
  - apply where_mono_length. intros x H. by apply (fleb_trans x thr thr').
  - apply where_mono_length. intros x H. by apply (fleb_fltb_trans thr thr' x).
Qed.

Lemma threshold_monotone_witness :
  exists s s', load_from_table ex_bvalue 0 = Ok s /\
    load_from_table ex_bvalue 1000 = Ok s' /\
    b0_idx s = [1; 2] /\ b0_idx s' = [0; 1; 2] /\ dwi_count s' <= dwi_count s.
Proof.
  exists (scheme_of ex_bvalue 0).
  destruct (threshold_monotone ex_bvalue 0 1000 (scheme_of ex_bvalue 0) eq_refl eq_refl)
    as (s' & Hs' & _ & _ & _ & _ & _ & _ & Hc).
  exists s'. split; [reflexivity|]. split; [exact Hs'|].
  split; [reflexivity|]. split; [|exact Hc].
  injection Hs' as <-. reflexivity.
Defined.

(** ** Shells, whatever the table holds *)

Lemma feqb_sym a c : (a =? c)%float = (c =? a)%float.
Proof.
  rewrite !FloatAxioms.eqb_spec.
  destruct (Prim2SF a) as [s|s| |s m e], (Prim2SF c) as [s'|s'| |s' m' e'];
    try destruct s; try destruct s'; try reflexivity.
  all: unfold SFeqb, SFcompare; finite_finite e e' m m'.
Qed.

Lemma key_eq_feqb a c :
  key a = key c -> a = c \/ (a =? c)%float = true.
Proof.
  intros H. destruct (key_eq_cases _ _ H) as [->|[Ha Hc]]; [by left|right].
  rewrite FloatAxioms.eqb_spec. zero_cases. reflexivity.
Qed.

Lemma make_shell_grad ver rs tmp u bu :
  shell_grad (make_shell ver rs tmp u bu)
  = map (fun j => take 3 (rs !!! j)) (shell_idx (make_shell ver rs tmp u bu)).
Proof.
  unfold make_shell. destruct (Nat.eqb ver 0); [reflexivity|].
  destruct (Nat.eqb ver 1); reflexivity.
Qed.

Section ShellsAlways.

Variables (data : ndarray) (thr : float) (s : Scheme).

Hypothesis Hwf : wf_ndarray data.

Hypothesis Hs : load_from_table data thr = Ok s.

Abbreviation D := (map (drop 3) (rows (raw s))).

Abbreviation N := (length (rows (raw s))).

(** The representative row of a shell, and what membership means. *)
Lemma shell_representative k sh :
  shells s !! k = Some sh ->
  exists r, shell_rows thr (b s) D !! k = Some r /\ r < N /\
    (forall j, j < r -> Np.row_eq (D !!! j) (D !!! r) = false) /\
    ((b s !!! r) <=? thr)%float = false /\
    shell_b sh = b s !!! r /\
    shell_grad sh = map (fun j => take 3 (rows (raw s) !!! j)) (shell_idx sh) /\
    forall i, i ∈ shell_idx sh <->
      i < N /\ rowkey (D !!! i) = rowkey (D !!! r) /\
      Forall (fun x => fnan x = false) (D !!! r).
Proof.
  intros Hk. apply (shells_lookup data thr s Hwf Hs) in Hk as (r & Hr & ->).
  exists r. split; [exact Hr|].
  assert (r ∈ shell_rows thr (b s) D) as Hrin by (apply list_elem_of_lookup; eauto).
  apply shell_rows_spec in Hrin as (HrN & Hfirst & Hnb).
  rewrite length_map in HrN.
  split; [exact HrN|]. split; [exact Hfirst|]. split; [exact Hnb|].
  split; [apply make_shell_b|]. split; [apply make_shell_grad|].
  intros i. rewrite make_shell_idx, length_map.
  split.
  - intros [Hi Heq]. split; [exact Hi|].
    by apply (descriptor_row_eq data thr s Hwf Hs r i).
  - intros (Hi & HK & Hn). split; [exact Hi|].
    by apply (descriptor_row_eq data thr s Hwf Hs r i).
Qed.

Lemma shells_share_no_row k k' sh sh' i :
  shells s !! k = Some sh -> shells s !! k' = Some sh' ->
  i ∈ shell_idx sh -> i ∈ shell_idx sh' -> k = k'.
Proof.
  intros Hk Hk' Hi Hi'.
  destruct (shell_representative _ _ Hk) as (r & Hr & HrN & Hfirst & _ & _ & _ & Hidx).
  destruct (shell_representative _ _ Hk') as (r' & Hr' & HrN' & Hfirst' & _ & _ & _ & Hidx').
  apply Hidx in Hi as (_ & HK & Hn). apply Hidx' in Hi' as (_ & HK' & Hn').
  assert (r = r') as <-.
  { destruct (lt_eq_lt_dec r r') as [[Hlt| ->]|Hlt]; [|reflexivity|]; exfalso.
    - specialize (Hfirst' r Hlt).
      rewrite (proj2 (descriptor_row_eq data thr s Hwf Hs r' r HrN' HrN)) in Hfirst';
        [discriminate|]. split; [congruence|exact Hn'].
    - specialize (Hfirst r' Hlt).
      rewrite (proj2 (descriptor_row_eq data thr s Hwf Hs r r' HrN HrN')) in Hfirst;
        [discriminate|]. split; [congruence|exact Hn]. }
  eapply NoDup_lookup;
    [apply StronglySorted_lt_NoDup, (shell_rows_sorted thr (b s) D)|eauto..].
Qed.

Lemma shell_rows_b sh i :
  sh ∈ shells s -> i ∈ shell_idx sh ->
  exists x, b s !! i = Some x /\ key x = key (shell_b sh) /\
            (x <=? thr)%float = false.
Proof.
  intros Hsh Hi. apply list_elem_of_lookup in Hsh as [k Hk].
  destruct (shell_representative _ _ Hk) as (r & _ & HrN & _ & Hnb & Hb & _ & Hidx).
  destruct (proj1 (Hidx i) Hi) as (HiN & HK & _).
  exists (b s !!! i).
  pose proof (b_key_descriptor data thr s Hs r i HrN HiN HK) as Hkey.
  split; [|split].
  - apply list_lookup_lookup_total_lt.
    pose proof (load_from_table_rows _ _ _ Hs) as (_ & Hlen & Hlb & _).
    lia.
  - by rewrite Hb.
  - by rewrite (key_leb _ _ thr Hkey).
Qed.

End ShellsAlways.

(** For every well-formed table, NaN included: no row is in the index
    lists of two shells; a row in the index list of a shell has the
    b-value of the shell (the same float, or both are zeros) and is not a
    baseline row; and the b-value of a shell is never at or below the
    threshold. *)
Theorem shells_disjoint data thr s :
  wf_ndarray data ->
  load_from_table data thr = Ok s ->
  (forall k k' sh sh' i,
     shells s !! k = Some sh -> shells s !! k' = Some sh' ->
     i ∈ shell_idx sh -> i ∈ shell_idx sh' -> k = k') /\
  (forall sh i, sh ∈ shells s -> i ∈ shell_idx sh ->
     exists x, b s !! i = Some x /\
       (x = shell_b sh \/ (x =? shell_b sh)%float = true) /\
       (x <=? thr)%float = false) /\
  (forall sh, sh ∈ shells s -> (shell_b sh <=? thr)%float = false).
Proof.
  intros Hwf Hs. split; [|split].
  - apply (shells_share_no_row data thr s Hwf Hs).
  - intros sh i Hsh Hi.
    destruct (shell_rows_b data thr s Hwf Hs sh i Hsh Hi) as (x & Hx & Hkey & Hnb).
    exists x. split; [exact Hx|]. split; [by apply key_eq_feqb|exact Hnb].
  - intros sh Hsh. apply list_elem_of_lookup in Hsh as [k Hk].
    destruct (shell_representative data thr s Hwf Hs _ _ Hk) as (r & _ & _ & _ & Hnb & -> & _).
    exact Hnb.
Qed.

Lemma shells_disjoint_witness :
  exists s, load_from_table ex_nan_b 0 = Ok s /\
    b s = [nan]%float /\ map shell_idx (shells s) = [[0]] /\
    forall sh, sh ∈ shells s -> (shell_b sh <=? 0)%float = false.
Proof.
  exists (scheme_of ex_nan_b 0). split; [reflexivity|].
  destruct (shells_disjoint ex_nan_b 0 (scheme_of ex_nan_b 0)) as (_ & _ & H).
  { repeat constructor. }
  { reflexivity. }
  split; [reflexivity|]. split; [reflexivity|exact H].
Defined.

(** The ['grad'] entry of a shell lists, in the order of its index
    list, columns 0-2 of the stored rows: one direction of three
    components per member row, as the sign normalization left it, so with
    a Y that is never negative. *)
Theorem shell_grad_directions data thr s :
  wf_ndarray data ->
  load_from_table data thr = Ok s ->
  forall sh, sh ∈ shells s ->
    shell_grad sh = map (fun j => take 3 (rows (raw s) !!! j)) (shell_idx sh) /\
    length (shell_grad sh) = length (shell_idx sh) /\
    Forall (fun g => length g = 3 /\ (g !!! 1%nat <? 0)%float = false) (shell_grad sh).
Proof.
  intros Hwf Hs sh Hsh. apply list_elem_of_lookup in Hsh as [k Hk].
  destruct (shell_representative data thr s Hwf Hs _ _ Hk)
    as (r & _ & _ & _ & _ & _ & Hgrad & Hidx).
  split; [exact Hgrad|]. rewrite Hgrad. split; [apply length_map|].
  apply Forall_forall. intros g Hg.
  apply list_elem_of_In, in_map_iff in Hg as (j & <- & Hj).
  apply list_elem_of_In, Hidx in Hj as (Hj & _).
  apply lookup_lt_is_Some_2 in Hj as [row Hrow].
  rewrite (list_lookup_total_correct _ _ _ Hrow).
  destruct (stored_y_not_negative _ _ _ _ _ Hwf Hs Hrow) as [Hlen Hy].
  pose proof (load_from_table_columns _ _ _ Hs) as Hcols.
  destruct row as [|x0 [|x1 [|x2 row]]]; simpl in Hlen; try lia.
  split; [reflexivity|exact Hy].
Qed.

Lemma shell_grad_directions_witness :
  exists s, load_from_table ex_stejskal_tanner 0 = Ok s /\
    map shell_grad (shells s) = [[[1; 0; 0]; [0; 0; 1]]; [[-0; 1; -0]]]%float /\
    forall sh, sh ∈ shells s -> length (shell_grad sh) = length (shell_idx sh).
Proof.
  exists (scheme_of ex_stejskal_tanner 0). split; [reflexivity|]. split; [reflexivity|].
  intros sh Hsh.
  destruct (shell_grad_directions ex_stejskal_tanner 0 (scheme_of ex_stejskal_tanner 0))
    with (sh := sh) as (_ & H & _).
  - repeat constructor.
  - reflexivity.
  - exact Hsh.
  - exact H.
Defined.

(** ** Shells of a table of b-values *)

(** In a 4-column table a shell is one b-value: its index list holds
    exactly the rows whose b-value equals the shell's, and two different
    shells have different b-values. *)
Theorem bvalue_shells data thr s :
  wf_ndarray data ->
  load_from_table data thr = Ok s ->
  column_count data = 4 ->
  (forall sh i, sh ∈ shells s ->
     i ∈ shell_idx sh <->
     exists x, b s !! i = Some x /\ (x =? shell_b sh)%float = true) /\
  (forall k k' sh sh',
     shells s !! k = Some sh -> shells s !! k' = Some sh' -> k <> k' ->
     (shell_b sh =? shell_b sh')%float = false).
Proof.
  intros Hwf Hs H4.
  assert (version s = 0) as Hv.
  { destruct (load_from_table_version _ _ _ Hs) as [[? ?]|[[? ?]|[? ?]]]; [assumption|lia..]. }
  pose proof (load_from_table_rows _ _ _ Hs) as (_ & Hlen & Hlb & _).
  set (D := map (drop 3) (rows (raw s))).
  assert (HD : forall i, i < length (rows (raw s)) -> D !!! i = [b s !!! i]).
  { intros i Hi.
    pose proof (descriptor_length _ _ _ i Hwf Hs Hi) as HL. fold D in HL. rewrite H4 in HL.
    rewrite (list_lookup_total_correct _ _ _ (b_lookup_descriptor data thr s Hs i Hi)).
    fold D. unfold b_of_descriptor. rewrite Hv. simpl.
    destruct (D !!! i) as [|x [|? ?]]; try discriminate. reflexivity. }
  assert (Heq : forall i r, i < length (rows (raw s)) -> r < length (rows (raw s)) ->
            Np.row_eq (D !!! i) (D !!! r) = (b s !!! i =? b s !!! r)%float).
  { intros i r Hi Hr. rewrite !HD by assumption. unfold Np.row_eq. simpl.
    apply andb_true_r. }
  split.
  - intros sh i Hsh. apply list_elem_of_lookup in Hsh as [k Hk].
    apply (shells_lookup data thr s Hwf Hs) in Hk as (r & Hr & ->).
    assert (r ∈ shell_rows thr (b s) D) as Hrin by (apply list_elem_of_lookup; eauto).
    apply shell_rows_spec in Hrin as (HrN & _ & _).
    unfold D in HrN. rewrite length_map in HrN.
    rewrite make_shell_idx, make_shell_b. fold D. unfold D at 1. rewrite length_map. split.
    + intros [Hi Hrow]. exists (b s !!! i). split.
      * apply list_lookup_lookup_total_lt. lia.
      * by rewrite <- Heq.
    + intros (x & Hx & Hxb). pose proof (lookup_lt_Some _ _ _ Hx) as Hi.
      split; [lia|]. rewrite Heq by lia.
      by rewrite (list_lookup_total_correct _ _ _ Hx).
  - intros k k' sh sh' Hk Hk' Hne.
    apply (shells_lookup data thr s Hwf Hs) in Hk as (r & Hr & ->).
    apply (shells_lookup data thr s Hwf Hs) in Hk' as (r' & Hr' & ->).
    rewrite !make_shell_b.
    assert (r ∈ shell_rows thr (b s) D) as Hrin by (apply list_elem_of_lookup; eauto).
    assert (r' ∈ shell_rows thr (b s) D) as Hrin' by (apply list_elem_of_lookup; eauto).
    apply shell_rows_spec in Hrin as (HrN & Hfirst & _).
    apply shell_rows_spec in Hrin' as (HrN' & Hfirst' & _).
    unfold D in HrN, HrN'. rewrite length_map in HrN, HrN'.
    destruct (lt_eq_lt_dec r r') as [[Hlt|Heqr]|Hlt].
    + rewrite <- Heq by assumption. by apply Hfirst'.
    + exfalso. subst r'. apply Hne.
      eapply NoDup_lookup;
        [apply StronglySorted_lt_NoDup, (shell_rows_sorted thr (b s) D)|eauto..].
    + rewrite feqb_sym, <- Heq by assumption. by apply Hfirst.
Qed.

Lemma bvalue_shells_witness :
  exists s, load_from_table ex_bvalue 0 = Ok s /\
    map shell_b (shells s) = [1000]%float /\
    forall sh i, sh ∈ shells s ->
      i ∈ shell_idx sh <->
      exists x, b s !! i = Some x /\ (x =? shell_b sh)%float = true.
Proof.
  exists (scheme_of ex_bvalue 0). split; [reflexivity|]. split; [reflexivity|].
  apply (bvalue_shells ex_bvalue 0).
  - repeat constructor.
  - reflexivity.
  - reflexivity.
Defined.

(** ** Files of the other formats *)

(** A scheme built from a 4-column table writes no Camino file at
    all, and one built from a 7-column table writes what [np.savetxt]
    gives for the stored (sign-normalized) table with the format
    [%15.8e], a space as delimiter, the header [VERSION: STEJSKALTANNER]
    and no comment prefix. *)
Theorem camino_other_formats str_float round_float savetxt data thr s :
  load_from_table data thr = Ok s ->
  (column_count data = 4 ->
   write_Camino_schemefile str_float round_float savetxt s = None) /\
  (column_count data = 7 ->
   write_Camino_schemefile str_float round_float savetxt s =
   Some (savetxt (rows (raw s)) "%15.8e" " " "VERSION: STEJSKALTANNER" "")).
Proof.
  intros Hs. rewrite write_Camino_schemefile_text.
  destruct (load_from_table_version _ _ _ Hs) as [[-> ?]|[[-> ?]|[-> ?]]];
    split; intros HM; try lia; reflexivity.
Qed.

Lemma camino_other_formats_witness :
  exists s, load_from_table ex_bvalue 0 = Ok s /\
    forall str_float round_float savetxt,
      write_Camino_schemefile str_float round_float savetxt s = None.
Proof.
  exists (scheme_of ex_bvalue 0). split; [reflexivity|].
  intros str_float round_float savetxt.
  exact (proj1 (camino_other_formats str_float round_float savetxt
                  ex_bvalue 0 (scheme_of ex_bvalue 0) eq_refl) eq_refl).
Defined.

(** ** Conversion never fails *)

(** [to_version_1] never fails and never changes the scheme it is
    called on, whatever the scheme; and a scheme it returns is in
    STEJSKAL_TANNER format with threshold 0 or the scheme itself, so that
    converting it again returns it as it is. *)
Theorem to_version_1_total s :
  exists r, to_version_1 s = Ok (r, s) /\
    (r = ReturnsSelf -> version s = 1) /\
    (r = ReturnsNone -> version s <> 1 /\ version s <> 2) /\
    forall s', r = ReturnsNew s' ->
      version s = 2 /\ version s' = 1 /\ b0_thr s' = 0%float /\
      to_version_1 s' = Ok (ReturnsSelf, s').
Proof.
  unfold to_version_1.
  destruct (Nat.eqb_spec (version s) 1) as [H1|H1].
  { exists ReturnsSelf. repeat split; try discriminate; auto. }
  destruct (Nat.eqb_spec (version s) 2) as [H2|H2].
  2:{ exists ReturnsNone. repeat split; try discriminate; auto. }
  set (dataBis := Matrix 7 (zip_with to_version_1_row (b s) (rows (raw s)))).
  unfold Scheme_init. change (default 0%float None) with 0%float.
  destruct (load_from_table (Array2D dataBis) 0) as [s'|e] eqn:Hs'.
  2:{ unfold load_from_table, load_from_table_with in Hs'. simpl in Hs'. discriminate. }
  exists (ReturnsNew s'). split; [reflexivity|].
  split; [discriminate|]. split; [discriminate|].
  intros s'' [= <-].
  pose proof (load_from_table_inv _ _ _ Hs') as (_ & Hthr & _).
  assert (version s' = 1) as Hv'.
  { destruct (load_from_table_version _ _ _ Hs') as [[? H4]|[[? _]|[_ H8]]];
      simpl in *; [lia|assumption|lia]. }
  repeat split; auto. rewrite Hv'. reflexivity.
Qed.

(** ** Empty shells *)

Lemma make_shell_idx_sorted ver rs tmp u bu :
  StronglySorted lt (shell_idx (make_shell ver rs tmp u bu)).
Proof.
  assert (shell_idx (make_shell ver rs tmp u bu)
          = Np.where_ (map (fun r => Np.row_eq r u) tmp)) as ->.
  { unfold make_shell. destruct (Nat.eqb ver 0); [reflexivity|].
    destruct (Nat.eqb ver 1); reflexivity. }
  apply where_sorted.
Qed.

(** A shell whose descriptor holds a NaN has an empty index list, as
    NaN equals nothing; any other shell is not empty, and the first row
    of its index list is the first row of the table with that
    descriptor. *)
Theorem shell_empty_iff_nan data thr s :
  wf_ndarray data ->
  load_from_table data thr = Ok s ->
  forall sh, sh ∈ shells s ->
    exists d, shell_descriptor (version s) sh = Some d /\
      (nan_free d = false -> shell_idx sh = []) /\
      (nan_free d = true ->
       exists r row, head (shell_idx sh) = Some r /\
         rows (raw s) !! r = Some row /\ drop 3 row = d /\
         forall j row', j < r -> rows (raw s) !! j = Some row' ->
           Np.row_eq (drop 3 row') d = false).
Proof.
  intros Hwf Hs sh Hsh. apply list_elem_of_lookup in Hsh as [k Hk].
  set (D := map (drop 3) (rows (raw s))).
  destruct (shell_representative data thr s Hwf Hs _ _ Hk)
    as (r & Hr & HrN & Hfirst & _ & _ & _ & Hidx).
  apply (shells_lookup data thr s Hwf Hs) in Hk as (r' & Hr' & Hsh).
  assert (r' = r) as -> by congruence. clear Hr'.
  assert (HDr : forall j, j < length (rows (raw s)) ->
            exists row, rows (raw s) !! j = Some row /\ D !!! j = drop 3 row).
  { intros j Hj. apply lookup_lt_is_Some_2 in Hj as [row Hrow]. exists row.
    split; [exact Hrow|]. unfold D. change (map ?f ?l) with (f <$> l).
    rewrite (list_lookup_total_fmap (drop 3) (rows (raw s)) j)
      by (by apply lookup_lt_Some in Hrow).
    by rewrite (list_lookup_total_correct _ _ _ Hrow). }
  exists (D !!! r). split; [|split].
  - rewrite Hsh.
    assert (b s !!! r = b_of_descriptor (version s) (D !!! r)) as ->.
    { by rewrite (list_lookup_total_correct _ _ _ (b_lookup_descriptor data thr s Hs r HrN)). }
    apply make_shell_descriptor.
    pose proof (descriptor_length _ _ _ r Hwf Hs HrN) as Hlen. fold D in Hlen.
    destruct (load_from_table_version _ _ _ Hs) as [[? ?]|[[? ?]|[? ?]]];
      [left|right; left|right; right]; split; auto; lia.
  - intros Hnan. destruct (shell_idx sh) as [|i l] eqn:E; [reflexivity|exfalso].
    assert (i ∈ i :: l) as Hi by left.
    apply Hidx in Hi as (_ & _ & Hn). apply nan_free_Forall in Hn. fold D in Hn. congruence.
  - intros Hfree. apply nan_free_Forall in Hfree.
    destruct (HDr r HrN) as (row & Hrow & HDrow).
    assert (r ∈ shell_idx sh) as Hrin by (apply Hidx; auto).
    assert (Hge : forall i, i ∈ shell_idx sh -> r <= i).
    { intros i (Hi & HK & _)%Hidx.
      destruct (le_lt_dec r i) as [|Hlt]; [assumption|exfalso].
      specialize (Hfirst i Hlt).
      rewrite (proj2 (descriptor_row_eq data thr s Hwf Hs r i HrN Hi)) in Hfirst;
        [discriminate|auto]. }
    assert (StronglySorted lt (shell_idx sh)) as Hsorted
      by (rewrite Hsh; apply make_shell_idx_sorted).
    exists r, row. split; [|split; [exact Hrow|split; [by rewrite HDrow|]]].
    + destruct (shell_idx sh) as [|i l] eqn:E; [inversion Hrin|]. simpl. f_equal.
      apply StronglySorted_inv in Hsorted as [_ Hall].
      apply elem_of_cons in Hrin as [->|Hrl]; [reflexivity|].
      eapply Forall_forall in Hall; [|exact Hrl].
      assert (r <= i) by (apply Hge; left). lia.
    + intros j row' Hj Hrow'. specialize (Hfirst j Hj).
      destruct (HDr j) as (row'' & Hrow'' & HDj); [lia|].
      rewrite Hrow' in Hrow''. injection Hrow'' as <-.
      unfold D in HDj |- *. by rewrite HDj in Hfirst.
Qed.

Lemma shell_empty_iff_nan_witness :
  exists s, load_from_table ex_nan_TE 0 = Ok s /\
    forall sh, sh ∈ shells s -> shell_idx sh = [].
Proof.
  exists (scheme_of ex_nan_TE 0). split; [reflexivity|].
  intros sh Hsh.
  destruct (shell_empty_iff_nan ex_nan_TE 0 (scheme_of ex_nan_TE 0)) with (sh := sh)
    as (d & Hd & Hnan & _).
  - repeat constructor.
  - reflexivity.
  - exact Hsh.
  - apply Hnan. apply list_elem_of_singleton in Hsh. subst sh.
    injection Hd as <-. reflexivity.
Defined.

(** ** Antipodal directions *)

Lemma opp_involutive x : (- - x)%float = x.
Proof.
  apply Prim2SF_inj. rewrite !FloatAxioms.opp_spec.
  destruct (Prim2SF x) as [[]|[]| |[] m e]; reflexivity.
Qed.

Lemma opp_positive y :
  (0 <? y)%float = true -> (- y <? 0)%float = true /\ (y <? 0)%float = false.
Proof.
  rewrite !FloatAxioms.ltb_spec, FloatAxioms.opp_spec.
  change (Prim2SF 0) with (S754_zero false).
  destruct (Prim2SF y) as [[]|[]| |[] m e]; simpl; try discriminate; auto.
Qed.

Lemma flip_row_involutive r : flip_row (flip_row r) = r.
Proof.
  unfold flip_row.
  destruct r as [|x0 [|x1 [|x2 r]]]; simpl; rewrite ?opp_involutive; reflexivity.
Qed.

Lemma normalized_row_lookup m i :
  negate_directions (negative_y m) (rows m) !! i =
  (fun r => if (r !!! 1%nat <? 0)%float then flip_row r else r) <$> rows m !! i.
Proof.
  rewrite negate_directions_lookup by apply where_NoDup.
  destruct (rows m !! i) as [r|] eqn:Hr; [|reflexivity]. simpl. f_equal.
  destruct (decide (i ∈ negative_y m)) as [Hi|Hi];
    unfold negative_y in Hi; rewrite where_fmap_spec in Hi.
  - destruct Hi as (r0 & Hr0 & Hneg). rewrite Hr in Hr0. injection Hr0 as <-.
    by rewrite Hneg.
  - destruct (r !!! 1%nat <? 0)%float eqn:E; [|reflexivity].
    exfalso. apply Hi. eauto.
Qed.

(** Replacing rows whose Y is not zero by their antipodes (columns
    0-2 negated) changes nothing: the table that has them builds the same
    scheme. *)
Theorem antipodal_invariance m m' thr s :
  wf_matrix m ->
  load_from_table (Array2D m) thr = Ok s ->
  shape1 m' = shape1 m ->
  Forall2 same_axis (rows m) (rows m') ->
  load_from_table (Array2D m') thr = Ok s.
Proof.
  intros Hwf Hs Hshape Hrows.
  pose proof (load_from_table_inv _ _ _ Hs) as (Hvb & _). simpl in Hvb.
  pose proof (load_from_table_columns _ _ _ Hs) as Hcols. simpl in Hcols.
  assert (HD : map (drop 3) (rows m') = map (drop 3) (rows m)).
  { clear -Hrows. induction Hrows as [|r r' rs rs' Hr _ IH]; [reflexivity|].
    simpl. rewrite IH. f_equal.
    destruct Hr as [->|[-> _]]; [reflexivity|apply drop_flip_row]. }
  assert (Hvb' : version_and_b m' = Ok (version s, b s)).
  { rewrite <- Hvb. by apply version_and_b_columns. }
  rewrite (load_from_table_eq (Array2D m) thr _ _ Hvb) in Hs.
  rewrite (load_from_table_eq (Array2D m') thr _ _ Hvb'). simpl ensure_2d in *.
  assert (negate_directions (negative_y m') (rows m')
          = negate_directions (negative_y m) (rows m)) as ->.
  { apply list_eq. intros i. rewrite !normalized_row_lookup.
    destruct (rows m !! i) as [r|] eqn:Hr.
    - destruct (Forall2_lookup_l _ _ _ _ _ Hrows Hr) as (r' & Hr' & Hax).
      rewrite Hr'. simpl. f_equal.
      assert (2 <= length r) as Hlen.
      { eapply Forall_lookup_1 in Hwf; [|exact Hr]. lia. }
      destruct Hax as [->|[-> [Hneg|Hpos]]]; [reflexivity| |].
      + rewrite Hneg, flip_row_y by exact Hlen.
        by rewrite (proj1 (opp_negative _ Hneg)).
      + destruct (opp_positive _ Hpos) as [Hneg' Hneg].
        by rewrite Hneg, flip_row_y, Hneg', flip_row_involutive.
    - destruct (rows m' !! i) as [r'|] eqn:Hr'; [|reflexivity].
      destruct (Forall2_lookup_r _ _ _ _ _ Hrows Hr') as (r & Hr0 & _). congruence. }
  rewrite Hshape. exact Hs.
Qed.

Lemma antipodal_invariance_witness :
  exists s,
    load_from_table
      (Array2D (Matrix 4 [[1; 0; 0; 1000]; [0; 1; 0; 0]; [0; -1; 0; 0]]%float)) 0 = Ok s /\
    load_from_table
      (Array2D (Matrix 4 [[1; 0; 0; 1000]; [-0; -1; -0; 0]; [-0; 1; -0; 0]]%float)) 0 = Ok s.
Proof.
  exists (scheme_of ex_bvalue 0). split; [reflexivity|].
  apply (antipodal_invariance (Matrix 4 [[1; 0; 0; 1000]; [0; 1; 0; 0]; [0; -1; 0; 0]]%float)).
  - repeat constructor.
  - reflexivity.
  - reflexivity.
  - constructor; [by left|].
    constructor; [right; split; [reflexivity|right; reflexivity]|].
    constructor; [right; split; [reflexivity|left; reflexivity]|].
    constructor.
Defined.

(** ** Rows without a gradient *)

Lemma is_zero_SF x : PrimFloat.is_zero x = SFis_zero (Prim2SF x).
Proof.
  unfold PrimFloat.is_zero. rewrite FloatAxioms.eqb_spec.
  change (Prim2SF zero) with (S754_zero false).
  destruct (Prim2SF x) as [[]|[]| |[] m e]; reflexivity.
Qed.

Lemma is_finite_SF x :
  PrimFloat.is_finite x =
  match Prim2SF x with S754_zero _ | S754_finite _ _ _ => true | _ => false end.
Proof.
  unfold PrimFloat.is_finite, PrimFloat.is_infinity.
  rewrite is_nan_fnan. unfold fnan.
  rewrite FloatAxioms.eqb_spec, FloatAxioms.abs_spec.
  change (Prim2SF infinity) with (S754_infinity false).
  destruct (Prim2SF x) as [[]|[]| |[] m e]; try reflexivity.
  all: unfold SFeqb, SFcompare, SFabs.
  all: destruct (e ?= _)%Z; try reflexivity.
Qed.

Lemma mul_zero_l a c :
  PrimFloat.is_zero a = true -> PrimFloat.is_finite c = true ->
  PrimFloat.is_zero (a * c)%float = true.
Proof.
  rewrite !is_zero_SF, is_finite_SF, FloatAxioms.mul_spec.
  destruct (Prim2SF a) as [?|?| |? ? ?]; try discriminate.
  destruct (Prim2SF c) as [?|?| |? ? ?]; try discriminate; reflexivity.
Qed.

Lemma mul_zero_r a c :
  PrimFloat.is_finite a = true -> PrimFloat.is_zero c = true ->
  PrimFloat.is_zero (a * c)%float = true.
Proof.
  rewrite !is_zero_SF, is_finite_SF, FloatAxioms.mul_spec.
  destruct (Prim2SF c) as [?|?| |? ? ?]; try discriminate.
  destruct (Prim2SF a) as [?|?| |? ? ?]; try discriminate; reflexivity.
Qed.

Lemma add_zero a c :
  PrimFloat.is_zero a = true -> PrimFloat.is_zero c = true ->
  PrimFloat.is_zero (a + c)%float = true.
Proof.
  rewrite !is_zero_SF, FloatAxioms.add_spec.
  destruct (Prim2SF a) as [[]|?| |? ? ?]; try discriminate;
    destruct (Prim2SF c) as [[]|?| |? ? ?]; try discriminate; reflexivity.
Qed.

Lemma div_zero a c :
  PrimFloat.is_zero a = true -> PrimFloat.is_finite c = true ->
  PrimFloat.is_zero c = false ->
  PrimFloat.is_zero (a / c)%float = true.
Proof.
  rewrite !is_zero_SF, is_finite_SF, FloatAxioms.div_spec.
  destruct (Prim2SF a) as [?|?| |? ? ?]; try discriminate.
  destruct (Prim2SF c) as [?|?| |? ? ?]; try discriminate; reflexivity.
Qed.

Lemma is_zero_finite a : PrimFloat.is_zero a = true -> PrimFloat.is_finite a = true.
Proof.
  rewrite is_zero_SF, is_finite_SF. by destruct (Prim2SF a).
Qed.

Lemma is_zero_key a : PrimFloat.is_zero a = true -> key a = key 0%float.
Proof.
  rewrite is_zero_SF. unfold key. change (Prim2SF 0) with (S754_zero false).
  by destruct (Prim2SF a).
Qed.

Lemma zero_baseline x thr :
  PrimFloat.is_zero x = true -> (0 <=? thr)%float = true -> (x <=? thr)%float = true.
Proof. intros Hx Hthr. by rewrite (key_leb _ _ thr (is_zero_key _ Hx)). Qed.

Lemma cumsum_from_zero acc g :
  PrimFloat.is_zero acc = true ->
  Forall (fun x => PrimFloat.is_zero x = true) g ->
  Forall (fun x => PrimFloat.is_zero x = true) (Np.cumsum_from acc g).
Proof.
  intros Hacc Hg. revert acc Hacc.
  induction Hg as [|x g Hx _ IH]; intros acc Hacc; simpl; constructor.
  - by apply add_zero.
  - apply IH. by apply add_zero.
Qed.

Lemma cumsum_zero g :
  Forall (fun x => PrimFloat.is_zero x = true) g ->
  Forall (fun x => PrimFloat.is_zero x = true) (Np.cumsum g).
Proof.
  destruct 1 as [|x g Hx Hg]; simpl; constructor; [exact Hx|].
  by apply cumsum_from_zero.
Qed.

Lemma dot_zero q :
  Forall (fun x => PrimFloat.is_zero x = true) q ->
  PrimFloat.is_zero (Np.dot q q) = true.
Proof.
  intros Hq. unfold Np.dot.
  assert (PrimFloat.is_zero 0 = true) as H0 by reflexivity.
  revert H0. generalize 0%float.
  induction Hq as [|x q Hx _ IH]; intros acc Hacc; simpl; [exact Hacc|].
  apply IH. apply add_zero; [exact Hacc|].
  apply mul_zero_l; [exact Hx|by apply is_zero_finite].
Qed.

(** A waveform whose samples are all zero has b-value zero, when the time
    step TE / len(g) is a finite number. *)
Lemma compute1D_b_zero g TE unit :
  Forall (fun x => PrimFloat.is_zero x = true) g ->
  PrimFloat.is_finite (TE / float_of_nat (length g))%float = true ->
  PrimFloat.is_zero (compute1D_b g (Some TE) unit) = true.
Proof.
  intros Hg Hdt. unfold compute1D_b, compute1D_b_with. simpl default at 1.
  set (dt := (TE / float_of_nat (length g))%float) in *.
  assert (PrimFloat.is_zero
            (Np.dot (map (fun c => (c * dt * 2.6751987E8)%float) (Np.cumsum g))
                    (map (fun c => (c * dt * 2.6751987E8)%float) (Np.cumsum g)) * dt)%float
          = true) as Hb.
  { apply mul_zero_l; [|exact Hdt]. apply dot_zero.
    apply Forall_forall. intros q Hq.
    apply list_elem_of_In, in_map_iff in Hq as (c & <- & Hc).
    pose proof (cumsum_zero g Hg) as Hcs.
    eapply Forall_forall in Hcs; [|apply list_elem_of_In; exact Hc].
    apply mul_zero_l; [|reflexivity]. by apply mul_zero_l. }
  cbv zeta. destruct (String.eqb _ "usual"); [|by destruct (String.eqb _ "SI")].
  apply div_zero; [exact Hb|reflexivity|reflexivity].
Qed.

(** In a WAVEFORM table a row whose samples are all zero, and whose
    time step TE / L is a finite number, has b-value zero; with a
    threshold that is not negative it is a baseline row and is in no
    shell. *)
Theorem zero_waveform_baseline data thr s i r :
  wf_ndarray data ->
  load_from_table data thr = Ok s ->
  7 < column_count data ->
  (0 <=? thr)%float = true ->
  rows (raw s) !! i = Some r ->
  Forall (fun x => PrimFloat.is_zero x = true) (drop 4 r) ->
  PrimFloat.is_finite (r !!! 3%nat / float_of_nat (length r - 4))%float = true ->
  (exists x, b s !! i = Some x /\ PrimFloat.is_zero x = true) /\
  i ∈ b0_idx s /\
  forall sh, sh ∈ shells s -> i ∉ shell_idx sh.
Proof.
  intros Hwf Hs HM Hthr Hr Hg Hdt.
  assert (version s = 2) as Hv.
  { destruct (load_from_table_version _ _ _ Hs) as [[? ?]|[[? ?]|[? ?]]]; [lia..|assumption]. }
  assert (b s !! i = Some (compute1D_b (drop 4 r) (Some (r !!! 3%nat)) None)) as Hb.
  { rewrite (b_from_stored_rows _ _ _ Hs). change (map ?f ?l) with (f <$> l).
    rewrite list_lookup_fmap, Hr. simpl. unfold b_of_descriptor. rewrite Hv. simpl.
    by rewrite lookup_total_drop3, drop_drop. }
  assert (PrimFloat.is_zero (compute1D_b (drop 4 r) (Some (r !!! 3%nat)) None) = true) as Hz.
  { apply compute1D_b_zero; [exact Hg|]. by rewrite length_drop. }
  assert (i ∈ b0_idx s) as Hi.
  { pose proof (load_from_table_inv _ _ _ Hs) as (_ & _ & -> & _).
    apply where_fmap_spec. eexists. split; [exact Hb|]. by apply zero_baseline. }
  split; [eauto|]. split; [exact Hi|].
  intros sh Hsh. by apply (baseline_in_no_shell data thr s Hwf Hs).
Qed.

Lemma zero_waveform_baseline_witness :
  exists s, load_from_table ex_waveform 0 = Ok s /\
    b s !! 1 = Some 0%float /\ 1 ∈ b0_idx s.
Proof.
  exists (scheme_of ex_waveform 0). split; [reflexivity|]. split; [reflexivity|].
  destruct (zero_waveform_baseline ex_waveform 0 (scheme_of ex_waveform 0) 1
              [-0; 1; -0; 0.1; 0; 0; 0; 0]%float) as (_ & H & _).
  - repeat constructor.
  - reflexivity.
  - simpl. lia.
  - reflexivity.
  - reflexivity.
  - repeat constructor.
  - reflexivity.
  - exact H.
Defined.

Lemma stejskal_tanner_b_zero r :
  PrimFloat.is_zero (r !!! 3%nat) = true ->
  PrimFloat.is_finite (r !!! 5%nat) = true ->
  PrimFloat.is_finite (r !!! 4%nat - r !!! 5%nat / 3)%float = true ->
  PrimFloat.is_zero (stejskal_tanner_b r) = true.
Proof.
  intros HG Hdelta HDelta. unfold stejskal_tanner_b, Np.square.
  assert (PrimFloat.is_zero (267.513e6 * r !!! 3%nat * r !!! 5%nat)%float = true) as Hq.
  { apply mul_zero_l; [|exact Hdelta]. by apply mul_zero_r. }
  apply mul_zero_l; [|reflexivity]. apply mul_zero_l; [|exact HDelta].
  apply mul_zero_l; [exact Hq|by apply is_zero_finite].
Qed.

(** In a STEJSKAL_TANNER table a row whose gradient strength G is
    zero, whose delta is finite and for which Delta - delta/3 is finite,
    has b-value zero; with a threshold that is not negative it is a
    baseline row and is in no shell. *)
Theorem zero_gradient_baseline data thr s i r :
  wf_ndarray data ->
  load_from_table data thr = Ok s ->
  column_count data = 7 ->
  (0 <=? thr)%float = true ->
  rows (raw s) !! i = Some r ->
  PrimFloat.is_zero (r !!! 3%nat) = true ->
  PrimFloat.is_finite (r !!! 5%nat) = true ->
  PrimFloat.is_finite (r !!! 4%nat - r !!! 5%nat / 3)%float = true ->
  (exists x, b s !! i = Some x /\ PrimFloat.is_zero x = true) /\
  i ∈ b0_idx s /\
  forall sh, sh ∈ shells s -> i ∉ shell_idx sh.
Proof.
  intros Hwf Hs HM Hthr Hr HG Hdelta HDelta.
  assert (version s = 1) as Hv.
  { destruct (load_from_table_version _ _ _ Hs) as [[? ?]|[[? ?]|[? ?]]]; [lia|assumption|lia]. }
  assert (b s !! i = Some (stejskal_tanner_b r)) as Hb.
  { rewrite (b_from_stored_rows _ _ _ Hs). change (map ?f ?l) with (f <$> l).
    rewrite list_lookup_fmap, Hr. simpl. unfold b_of_descriptor. rewrite Hv. simpl.
    by rewrite !lookup_total_drop3. }
  pose proof (stejskal_tanner_b_zero r HG Hdelta HDelta) as Hz.
  assert (i ∈ b0_idx s) as Hi.
  { pose proof (load_from_table_inv _ _ _ Hs) as (_ & _ & -> & _).
    apply where_fmap_spec. eexists. split; [exact Hb|]. by apply zero_baseline. }
  split; [eauto|]. split; [exact Hi|].
  intros sh Hsh. by apply (baseline_in_no_shell data thr s Hwf Hs).
Qed.

Lemma zero_gradient_baseline_witness :
  exists s, load_from_table ex_stejskal_tanner 0 = Ok s /\
    b s !! 3 = Some 0%float /\ 3 ∈ b0_idx s.
Proof.
  exists (scheme_of ex_stejskal_tanner 0). split; [reflexivity|]. split; [reflexivity|].
  destruct (zero_gradient_baseline ex_stejskal_tanner 0 (scheme_of ex_stejskal_tanner 0) 3
              [0; 1; 0; 0; 0.025; 0.010; 0.1]%float) as (_ & H & _).
  - repeat constructor.
  - reflexivity.
  - reflexivity.
  - reflexivity.
  - reflexivity.
  - reflexivity.
  - reflexivity.
  - reflexivity.
  - exact H.
Defined.

(** ** Conversion of the rows without a gradient *)

Lemma sqrt_zero a :
  PrimFloat.is_zero a = true -> PrimFloat.is_zero (PrimFloat.sqrt a) = true.
Proof.
  rewrite !is_zero_SF, FloatAxioms.sqrt_spec.
  destruct (Prim2SF a) as [?|?| |? ? ?]; try discriminate. reflexivity.
Qed.

(** The row of the converted table for a b-value that is zero. *)
Lemma to_version_1_row_zero value r :
  3 <= length r -> PrimFloat.is_zero value = true ->
  PrimFloat.is_zero (stejskal_tanner_b (to_version_1_row value r)) = true.
Proof.
  intros Hlen Hz. unfold to_version_1_row. cbv zeta.
  destruct r as [|x0 [|x1 [|x2 r]]]; simpl in Hlen; try lia.
  apply stejskal_tanner_b_zero; try reflexivity.
  change ((take 3 (x0 :: x1 :: x2 :: r) ++ ?l) !!! 3) with (l !!! 0).
  simpl. apply sqrt_zero. apply div_zero; [exact Hz|reflexivity|reflexivity].
Qed.

(** A row of a WAVEFORM scheme whose b-value is zero is given the
    gradient strength 0 by [to_version_1], has b-value zero in the scheme
    that is returned, and is one of its baseline rows. *)
Theorem to_version_1_zero_rows data thr s s' i x :
  wf_ndarray data ->
  load_from_table data thr = Ok s ->
  7 < column_count data ->
  to_version_1 s = Ok (ReturnsNew s', s) ->
  b s !! i = Some x ->
  PrimFloat.is_zero x = true ->
  (exists r', rows (raw s') !! i = Some r' /\ PrimFloat.is_zero (r' !!! 3%nat) = true) /\
  (exists x', b s' !! i = Some x' /\ PrimFloat.is_zero x' = true) /\
  i ∈ b0_idx s'.
Proof.
  intros Hwf Hs HM Hto Hx Hz.
  assert (version s = 2) as Hv.
  { destruct (load_from_table_version _ _ _ Hs) as [[? ?]|[[? ?]|[? ?]]]; [lia..|assumption]. }
  set (dataBis := Matrix 7 (zip_with to_version_1_row (b s) (rows (raw s)))).
  assert (load_from_table (Array2D dataBis) 0 = Ok s') as Hs'.
  { unfold to_version_1, Scheme_init in Hto. rewrite Hv in Hto.
    change (Nat.eqb 2 1) with false in Hto. change (Nat.eqb 2 2) with true in Hto.
    cbv iota in Hto. fold dataBis in Hto.
    change (default 0%float None) with 0%float in Hto.
    destruct (load_from_table (Array2D dataBis) 0) as [s0|e]; [|discriminate].
    by injection Hto as ->. }
  pose proof (load_from_table_rows _ _ _ Hs) as (_ & Hlen & Hlb & _).
  assert (is_Some (rows (raw s) !! i)) as [r Hr].
  { apply lookup_lt_is_Some. apply lookup_lt_Some in Hx. lia. }
  destruct (stored_y_not_negative _ _ _ _ _ Hwf Hs Hr) as [Hrlen _].
  assert (rows dataBis !! i = Some (to_version_1_row x r)) as Hrow.
  { simpl. apply lookup_zip_with_Some. eauto. }
  assert (version s' = 1) as Hv'.
  { destruct (load_from_table_version _ _ _ Hs') as [[? H4]|[[? _]|[_ H8]]];
      simpl in *; [lia|assumption|lia]. }
  assert (b s' !! i = Some (stejskal_tanner_b (to_version_1_row x r))) as Hb'.
  { pose proof (load_from_table_rows _ _ _ Hs') as (_ & _ & _ & ->). simpl ensure_2d.
    change (map ?f ?l) with (f <$> l). rewrite list_lookup_fmap, Hrow. simpl.
    unfold b_of_descriptor. rewrite Hv'. simpl. by rewrite !lookup_total_drop3. }
  assert (PrimFloat.is_zero (stejskal_tanner_b (to_version_1_row x r)) = true) as Hz'.
  { apply to_version_1_row_zero; [lia|exact Hz]. }
  split; [|split].
  - pose proof (stored_row_lookup _ _ _ _ _ Hs' Hrow) as Hstored. simpl in Hstored.
    eexists. split; [exact Hstored|].
    assert (forall row : list float, 4 <= length row -> flip_row row !!! 3 = row !!! 3) as Hflip.
    { intros [|y0 [|y1 [|y2 [|y3 row]]]] Hl; simpl in Hl; try lia. reflexivity. }
    assert (length (to_version_1_row x r) = 7) as Hl7.
    { unfold to_version_1_row. cbv zeta.
      rewrite length_app, length_take, Nat.min_l by lia. reflexivity. }
    assert (PrimFloat.is_zero (to_version_1_row x r !!! 3%nat) = true) as HG.
    { unfold to_version_1_row. cbv zeta.
      destruct r as [|x0 [|x1 [|x2 r]]]; simpl in Hrlen; try lia.
      change ((take 3 (x0 :: x1 :: x2 :: r) ++ ?l) !!! 3) with (l !!! 0).
      simpl. apply sqrt_zero. apply div_zero; [exact Hz|reflexivity|reflexivity]. }
    destruct (_ <? 0)%float; [rewrite Hflip by lia|]; exact HG.
  - eauto.
  - pose proof (load_from_table_inv _ _ _ Hs') as (_ & _ & -> & _).
    apply where_fmap_spec. eexists. split; [exact Hb'|]. by apply zero_baseline.
Qed.

Lemma to_version_1_zero_rows_witness :
  exists s s', load_from_table ex_waveform 0 = Ok s /\
    to_version_1 s = Ok (ReturnsNew s', s) /\
    b s !! 1 = Some 0%float /\ b s' !! 1 = Some 0%float /\ 1 ∈ b0_idx s'.
Proof.
  set (s := scheme_of ex_waveform 0).
  set (s' := scheme_of
               (Array2D (Matrix 7 (zip_with to_version_1_row (b s) (rows (raw s))))) 0).
  assert (to_version_1 s = Ok (ReturnsNew s', s)) as Hto by (vm_compute; reflexivity).
  exists s, s'. split; [reflexivity|]. split; [exact Hto|]. split; [reflexivity|].
  destruct (to_version_1_zero_rows ex_waveform 0 s s' 1 0) as (_ & _ & Hin).
  - repeat constructor.
  - reflexivity.
  - simpl. lia.
  - exact Hto.
  - reflexivity.
  - reflexivity.
  - split; [reflexivity|exact Hin].
Defined.

(** ** The header of a scheme file *)

Lemma dead_not_nullable r : dead r = true -> Re.nullable r = false.
Proof.
  induction r as [| |p|r1 IH1 r2 IH2|r1 IH1 r2 IH2|r IH]; simpl; try discriminate.
  - reflexivity.
  - intros [H|H]%orb_true_iff; [rewrite (IH1 H)|rewrite (IH2 H), andb_false_r]; reflexivity.
  - intros [H1 H2]%andb_true_iff. by rewrite (IH1 H1), (IH2 H2).
Qed.

Lemma dead_deriv c r : dead r = true -> dead (Re.deriv c r) = true.
Proof.
  induction r as [| |p|r1 IH1 r2 IH2|r1 IH1 r2 IH2|r IH]; simpl; try discriminate.
  - reflexivity.
  - intros [H|H]%orb_true_iff.
    + rewrite (IH1 H), (dead_not_nullable _ H). reflexivity.
    + rewrite H, orb_true_r. destruct (Re.nullable r1); [exact (IH2 H)|reflexivity].
  - intros [H1 H2]%andb_true_iff. by rewrite (IH1 H1), (IH2 H2).
Qed.

Lemma match_dead r s : dead r = true -> Re.match_ r s = false.
Proof.
  revert r. induction s as [|c s IH]; intros r H; simpl;
    rewrite (dead_not_nullable _ H); [reflexivity|].
  apply IH, dead_deriv, H.
Qed.

Lemma match_nullable r s : Re.nullable r = true -> Re.match_ r s = true.
Proof. intros H. destruct s; simpl; by rewrite H. Qed.

(** A character is in at most one of the four classes. *)
Lemma class_cases c :
  (is_sign c = true /\ is_digit c = false /\ is_dot c = false) \/
  (is_sign c = false /\ is_digit c = true /\ is_dot c = false) \/
  (is_sign c = false /\ is_digit c = false /\ is_dot c = true) \/
  (is_sign c = false /\ is_digit c = false /\ is_dot c = false).
Proof.
  destruct c as [[] [] [] [] [] [] [] []]; vm_compute; tauto.
Qed.

#[local] Arguments is_digit : simpl never.
#[local] Arguments is_sign : simpl never.
#[local] Arguments is_dot : simpl never.
#[local] Arguments is_exponent : simpl never.

(** The pattern once the sign is read, or skipped. *)
Lemma match_unsigned (rest : Re.regex) s :
  let d := Re.Class is_digit in
  Re.match_
    (Re.Cat (Re.Alt (Re.Cat (Re.Plus d) (Re.Opt (Re.Cat (Re.Class is_dot) (Re.Star d))))
                    (Re.Cat (Re.Class is_dot) (Re.Plus d)))
            (Re.Opt rest)) s
  = unsigned_start s.
Proof.
  intros d. destruct s as [|c s]; [reflexivity|].
  unfold unsigned_start. cbn -[Re.match_ d].
  change (Re.match_ ?r (String c s))
    with (Re.nullable r || Re.match_ (Re.deriv c r) s). cbn -[Re.match_].
  destruct (class_cases c) as [(Hs & Hd & Hp)|[(Hs & Hd & Hp)|[(Hs & Hd & Hp)|(Hs & Hd & Hp)]]];
    rewrite Hd, Hp.
  - apply match_dead. by destruct (Re.nullable rest).
  - apply match_nullable. cbn. by destruct (Re.nullable rest).
  - destruct s as [|c' s]; [reflexivity|].
    change (Re.match_ ?r (String c' s))
      with (Re.nullable r || Re.match_ (Re.deriv c' r) s). cbn -[Re.match_].
    destruct (is_digit c').
    + apply match_nullable. cbn. by destruct (Re.nullable rest).
    + apply match_dead. by destruct (Re.nullable rest), (is_dot c').
  - apply match_dead. by destruct (Re.nullable rest).
Qed.

Lemma match_alt r1 r2 s :
  Re.match_ (Re.Alt r1 r2) s = Re.match_ r1 s || Re.match_ r2 s.
Proof.
  revert r1 r2. induction s as [|c s IH]; intros r1 r2; simpl.
  - by destruct (Re.nullable r1), (Re.nullable r2).
  - rewrite IH. by destruct (Re.nullable r1), (Re.nullable r2), (Re.match_ (Re.deriv c r1) s).
Qed.

(** An optional character of the class [p] in front of [r]: the character
    is read, or skipped. *)
Lemma match_optional p r c s :
  Re.match_ (Re.Cat (Re.Opt (Re.Class p)) r) (String c s)
  = (p c && Re.match_ r s) || Re.match_ r (String c s).
Proof.
  change (Re.match_ ?r0 (String c s))
    with (Re.nullable r0 || Re.match_ (Re.deriv c r0) s).
  cbn -[Re.match_]. rewrite match_alt.
  destruct (p c); cbn -[Re.match_].
  - assert (Re.match_ (Re.Cat (Re.Alt Re.Eps Re.Empty) r) s = Re.match_ r s) as ->.
    { destruct s as [|c' s]; simpl; [by destruct (Re.nullable r)|].
      rewrite match_alt, (match_dead (Re.Cat _ r)) by reflexivity. reflexivity. }
    by destruct (Re.nullable r), (Re.match_ r s), (Re.match_ (Re.deriv c r) s).
  - rewrite (match_dead (Re.Cat _ r)) by reflexivity. reflexivity.
Qed.

Lemma match_number_pattern s : Re.match_ number_pattern s = starts_number s.
Proof.
  destruct s as [|c s]; [reflexivity|].
  unfold number_pattern. cbv zeta.
  rewrite match_optional, !match_unsigned.
  unfold starts_number.
  destruct (class_cases c) as [(-> & Hd & Hp)|[(-> & _)|[(-> & _)|(-> & _)]]];
    try reflexivity.
  unfold unsigned_start at 2. rewrite Hd, Hp. simpl. apply orb_false_r.
Qed.

(** ** The matcher finds the prefixes a pattern matches *)

Lemma append_eq_nil (s1 s2 : string) :
  s1 +:+ s2 = EmptyString -> s1 = EmptyString /\ s2 = EmptyString.
Proof. destruct s1; [auto|discriminate]. Qed.

Lemma nullable_matches r : Re.nullable r = true <-> matches r EmptyString.
Proof.
  split.
  - induction r as [| |p|r1 IH1 r2 IH2|r1 IH1 r2 IH2|r IH]; simpl; try discriminate.
    + constructor.
    + intros [H1 H2]%andb_true_iff.
      apply (matches_cat r1 r2 EmptyString EmptyString); auto.
    + intros [H|H]%orb_true_iff; [apply matches_alt_l|apply matches_alt_r]; auto.
    + constructor.
  - intros H. remember EmptyString as t eqn:Et.
    induction H as [|p c Hc|r1 r2 s1 s2 _ IH1 _ IH2|r1 r2 s _ IH|r1 r2 s _ IH| |];
      simpl; try reflexivity; try discriminate.
    + apply append_eq_nil in Et as [-> ->]. by rewrite IH1, IH2.
    + by rewrite IH.
    + rewrite IH by exact Et. apply orb_true_r.
Qed.

Lemma deriv_matches c r s : matches (Re.deriv c r) s <-> matches r (String c s).
Proof.
  split.
  - revert s. induction r as [| |p|r1 IH1 r2 IH2|r1 IH1 r2 IH2|r IH]; intros s H; simpl in H.
    + inversion H.
    + inversion H.
    + destruct (p c) eqn:E; inversion H; subst. by constructor.
    + inversion H as [| | |? ? ? H'|? ? ? H'| |]; subst.
      * inversion H' as [| |? ? s1 s2 H1 H2| | | |]; subst.
        apply (matches_cat r1 r2 (String c s1) s2); auto.
      * destruct (Re.nullable r1) eqn:E; [|inversion H'].
        apply (matches_cat r1 r2 EmptyString (String c s)); [|auto].
        by apply nullable_matches.
    + inversion H; subst; [apply matches_alt_l|apply matches_alt_r]; auto.
    + inversion H as [| |? ? s1 s2 H1 H2| | | |]; subst.
      apply (matches_star_cons r (String c s1) s2); auto.
  - intros H. remember (String c s) as t eqn:Et. revert s Et.
    induction H as [|p c' Hc|r1 r2 s1 s2 H1 IH1 H2 IH2|r1 r2 s' _ IH|r1 r2 s' _ IH
                    |r|r s1 s2 H1 IH1 H2 IH2]; intros s Et; simpl.
    + discriminate.
    + injection Et as -> <-. rewrite Hc. constructor.
    + destruct s1 as [|c1 s1]; simpl in Et.
      * apply nullable_matches in H1. rewrite H1. apply matches_alt_r. by apply IH2.
      * injection Et as -> <-. apply matches_alt_l. constructor; auto.
    + apply matches_alt_l. by apply IH.
    + apply matches_alt_r. by apply IH.
    + discriminate.
    + destruct s1 as [|c1 s1]; simpl in Et.
      * by apply IH2.
      * injection Et as -> <-. constructor; auto.
Qed.

(** [Re.match_ r s] holds exactly when [r] matches some characters at the
    beginning of [s]. *)
Lemma match_prefix r s :
  Re.match_ r s = true <-> exists s1 s2, s = s1 +:+ s2 /\ matches r s1.
Proof.
  revert r. induction s as [|c s IH]; intros r; simpl.
  - rewrite orb_false_r, nullable_matches. split.
    + intros H. by exists EmptyString, EmptyString.
    + intros (s1 & s2 & Hs & H). symmetry in Hs. by apply append_eq_nil in Hs as [-> _].
  - rewrite orb_true_iff, nullable_matches, IH. split.
    + intros [H|(s1 & s2 & -> & H)].
      * by exists EmptyString, (String c s).
      * exists (String c s1), s2. split; [reflexivity|]. by apply deriv_matches.
    + intros ([|c1 s1] & s2 & Hs & H); [by left|right].
      simpl in Hs. injection Hs as <- ->.
      exists s1, s2. split; [reflexivity|]. by apply deriv_matches.
Qed.

(** ** The header lines *)

(** The pattern of line 36 matches some characters at the beginning
    of a text, which is when [re.match] finds a match, exactly when the
    text begins, after one optional sign, with a digit or with a dot that
    a digit follows; what comes after plays no part. *)
Theorem number_pattern_prefix s :
  Re.match_ number_pattern s = starts_number s /\
  ((exists s1 s2, s = s1 +:+ s2 /\ matches number_pattern s1) <->
   starts_number s = true).
Proof.
  split; [apply match_number_pattern|].
  rewrite <- match_prefix. by rewrite match_number_pattern.
Qed.

(** The number of header lines counted by the constructor is the
    position of the first line that, once stripped, begins with a number:
    no line before it does, and all lines are counted when none does. *)
Theorem header_lines_first_number fid :
  let n := header_lines fid in
  n <= length fid /\
  (forall i line, i < n -> fid !! i = Some line ->
     starts_number (strip line) = false) /\
  (forall line, fid !! n = Some line -> starts_number (strip line) = true) /\
  (n = length fid <->
   Forall (fun line => starts_number (strip line) = false) fid).
Proof.
  induction fid as [|line fid (IHle & IHbefore & IHat & IHall)]; simpl.
  - split; [lia|]. split; [intros; lia|]. split; [discriminate|]. split; auto.
  - rewrite match_number_pattern.
    destruct (starts_number (strip line)) eqn:E.
    + split; [lia|]. split; [intros; lia|]. split; [by intros ? [= <-]|].
      split; [discriminate|]. intros [H _]%Forall_cons. congruence.
    + split; [lia|]. split; [|split; [exact IHat|]].
      * intros [|i] l Hi Hl; simpl in Hl; [congruence|]. apply (IHbefore i); [lia|exact Hl].
      * rewrite Forall_cons. split.
        -- intros [= Hn]. split; [exact E|]. by apply IHall.
        -- intros [_ H]. f_equal. by apply IHall.
Qed.

Example header_lines_example :
  header_lines ["VERSION: BVECTOR" +:+ newline; " # x y z b" +:+ newline;
                "  -.5 0 0 1000" +:+ newline; "0 1 0 0" +:+ newline] = 2.
Proof. reflexivity. Qed.
